(** * pyspool: the SPOOL blockchain explorer ([spool/spoolex.py])

    A shallow embedding of [BlockchainSpider] and the properties of its
    history reconstruction: the output scanner [check_script], the address
    resolver [_get_addresses], the tree builder [history], the chain
    extractor [chain] and the in-place [strip_loan]. *)

From Stdlib Require Import ZArith Strings.Byte Ascii String List.
From stdpp Require Import base option list gmap strings sorting.

Open Scope string_scope.
Open Scope list_scope.
Open Scope Z_scope.

(** ** Exceptions and results *)

(** The exceptions that the explorer raises or lets through. *)
Inductive exn : Type :=
  | InvalidAscribeTransaction   (* Exception("Invalid ascribe transaction") *)
  | InvalidTransactionError     (* class InvalidTransactionError *)
  | IndexError                  (* list index out of range *)
  | KeyError                    (* pop from an empty set *)
  | BinasciiError               (* binascii.Error, from unhexlify *)
  | ValueError                  (* unhexlify on a str that is not ASCII *)
  | SpoolverbError.             (* raised by Spoolverb.from_verb *)

Inductive result (A : Type) : Type :=
  | Ok (a : A)
  | Raise (e : exn).
Arguments Ok {A} a.
Arguments Raise {A} e.

#[global] Instance result_ret : MRet result := fun A a => Ok a.
#[global] Instance result_bind : MBind result := fun A B f m =>
  match m with
  | Ok a => f a
  | Raise e => Raise e
  end.
#[global] Instance result_fmap : FMap result := fun A B f m =>
  match m with
  | Ok a => Ok (f a)
  | Raise e => Raise e
  end.

(** [l[i]] for the two indices the explorer uses: [l[0]] and [l[-1]]. *)
Definition index_first {A} (l : list A) : result A :=
  match head l with
  | Some x => Ok x
  | None => Raise IndexError
  end.

Definition index_last {A} (l : list A) : result A :=
  match last l with
  | Some x => Ok x
  | None => Raise IndexError
  end.

(** ** Python's [sorted(l, key=...)]: a stable sort on an integer key *)

Section Sorted.
Context {A : Type} (key : A -> Z).

Fixpoint insert_by (x : A) (l : list A) : list A :=
  match l with
  | [] => [x]
  | y :: l' => if key x <=? key y then x :: y :: l' else y :: insert_by x l'
  end.

Definition sorted (l : list A) : list A := foldr insert_by [] l.

(** The order of the result. *)
Definition key_le (x y : A) : Prop := key x <= key y.
End Sorted.

(** ** Transactions as the transaction source returns them *)

Module Vin.
Record t : Type := mk { address : string }.
End Vin.

Module Vout.
Record t : Type := mk { n : Z; address : string; hex : string }.
End Vout.

Module Tx.
Record t : Type := mk {
  txid : string;
  vins : list Vin.t;
  vouts : list Vout.t;
  time : Z
}.
End Tx.

(** ** The address resolver *)

(** [set([vin['address'] for vin in tx['vins']])] *)
Definition senders (tx : Tx.t) : gset string :=
  list_to_set (Vin.address <$> Tx.vins tx).

(** [s.pop()]: on a one-element set, its element. *)
Definition set_pop (s : gset string) : result string :=
  match elements s with
  | a :: _ => Ok a
  | [] => Raise KeyError
  end.

(** [sorted(tx['vouts'], key=lambda d: d['n'])[:-1]] *)
Definition ordered_vouts (tx : Tx.t) : list Vout.t :=
  removelast (sorted Vout.n (Tx.vouts tx)).

Definition _get_addresses (tx : Tx.t) : result (string * string * string) :=
  let from_address := senders tx in
  if decide (size from_address ≠ 1%nat) then Raise InvalidTransactionError
  else
    let vouts := ordered_vouts tx in
    first ← index_first vouts;
    let piece_address := Vout.address first in
    final ← index_last vouts;
    let to_address := Vout.address final in
    from_address ← set_pop from_address;
    Ok (from_address, to_address, piece_address).

(** Two outputs with the same index and the same address, whatever their
    scripts. *)
Definition same_place (v1 v2 : Vout.t) : Prop :=
  Vout.n v1 = Vout.n v2 /\ Vout.address v1 = Vout.address v2.

(** ** The verb interpreter and the transaction source (collaborators) *)

Module Spoolverb.
Record t : Type := mk {
  action : string;
  edition_number : Z;
  num_editions : Z
}.
End Spoolverb.

(** [Spoolverb.from_verb] and [Spoolverb.supported_actions]: the codec is
    outside [spoolex.py]; the explorer only relies on this interface. *)
Class VerbInterpreter : Type := {
  from_verb : list byte -> result Spoolverb.t;
  supported_actions : list string
}.

(** [Transactions.get]: by hash, the ids of the referencing transactions;
    by id, the transaction's detail. *)
Class Transactions : Type := {
  get_transactions : string -> list string;
  get_tx : string -> Tx.t
}.

(** ** The output scanner *)

Definition hex_digit (c : ascii) : result N :=
  let k := N_of_ascii c in
  if ((48 <=? k) && (k <=? 57))%N then Ok (k - 48)%N
  else if ((97 <=? k) && (k <=? 102))%N then Ok (k - 87)%N
  else if ((65 <=? k) && (k <=? 70))%N then Ok (k - 55)%N
  else Raise BinasciiError.

(** The conversion of [binascii.unhexlify]: two hexadecimal digits per byte;
    an odd length or a character that is no hexadecimal digit raises
    [binascii.Error]. *)
Fixpoint a2b_hex (s : string) : result (list byte) :=
  match s with
  | EmptyString => Ok []
  | String _ EmptyString => Raise BinasciiError
  | String a (String b s') =>
      hi ← hex_digit a;
      lo ← hex_digit b;
      rest ← a2b_hex s';
      Ok (byte_of_ascii (ascii_of_N (16 * hi + lo)) :: rest)
  end.

(** The characters of a [str] that are ASCII; those above 127 stand for the
    characters that are not. *)
Definition is_ascii (c : ascii) : bool := (N_of_ascii c <? 128)%N.

Fixpoint all_ascii (s : string) : bool :=
  match s with
  | EmptyString => true
  | String c s' => is_ascii c && all_ascii s'
  end.

(** [binascii.unhexlify] on a [str]: the argument has to be ASCII, or
    [ValueError] is raised before anything is converted. *)
Definition unhexlify (s : string) : result (list byte) :=
  if all_ascii s then a2b_hex s else Raise ValueError.

(** [s[k:]] *)
Fixpoint string_drop (k : nat) (s : string) : string :=
  match k, s with
  | O, _ => s
  | S k', String _ s' => string_drop k' s'
  | S _, EmptyString => EmptyString
  end.

(** [s.startswith(p)] *)
Definition startswith (p s : string) : bool := String.prefix p s.

Definition decode_op_return (op_return_hex : string) : result (list byte) :=
  unhexlify (string_drop 4 op_return_hex).

(** A character that [unhexlify] reads as a digit, and a string of such
    characters only. *)
Definition is_hex_digit (c : ascii) : bool :=
  match hex_digit c with
  | Ok _ => true
  | Raise _ => false
  end.

Fixpoint all_hex (s : string) : bool :=
  match s with
  | EmptyString => true
  | String c s' => is_hex_digit c && all_hex s'
  end.

(** [binascii.hexlify]: two lower-case digits per byte, the encoding that
    [unhexlify] reads back. *)
Definition hex_char (k : N) : ascii :=
  ascii_of_N (if (k <? 10)%N then 48 + k else 87 + k).

Fixpoint hexlify (bs : list byte) : string :=
  match bs with
  | [] => EmptyString
  | b :: bs' =>
      let k := Byte.to_N b in
      String (hex_char (k / 16)) (String (hex_char (k mod 16)) (hexlify bs'))
  end.

(** [[v for v in vouts[::-1] if v['hex'].startswith('6a')]] *)
Definition candidates (vouts : list Vout.t) : list Vout.t :=
  List.filter (fun v => startswith "6a" (Vout.hex v)) (rev vouts).

Section Scanner.
Context {VI : VerbInterpreter}.

Definition supported (action : string) : bool :=
  bool_decide (action ∈ supported_actions).

(** The body of the [for] loop of [check_script], over the candidates
    that are left. *)
Fixpoint scan (vouts : list Vout.t) : result (list byte) :=
  match vouts with
  | [] => Raise InvalidAscribeTransaction
  | vout :: rest =>
      verb ← decode_op_return (Vout.hex vout);
      v ← from_verb verb;
      if supported (Spoolverb.action v) then Ok verb else scan rest
  end.

Definition check_script (vouts : list Vout.t) : result (list byte) :=
  scan (candidates vouts).

(** What one turn of the loop decodes: the payload and its action. *)
Definition payload_action (vout : Vout.t) : result (list byte * string) :=
  verb ← decode_op_return (Vout.hex vout);
  v ← from_verb verb;
  Ok (verb, Spoolverb.action v).

(** A candidate that decodes, to an action that is not supported. *)
Definition passed_over (vout : Vout.t) : Prop :=
  exists verb action,
    payload_action vout = Ok (verb, action) /\ supported action = false.
End Scanner.

(** ** Events and the history tree *)

Module Event.
Record t : Type := mk {
  txid : string;
  verb : list byte;
  from_address : string;
  to_address : string;
  piece_address : string;
  timestamp_utc : Z;
  action : string;
  number_editions : Z;
  edition_number : Z
}.

(** [d.update({'number_editions': k})] *)
Definition update_number_editions (k : Z) (d : t) : t :=
  mk (txid d) (verb d) (from_address d) (to_address d) (piece_address d)
     (timestamp_utc d) (action d) k (edition_number d).
End Event.

(** [tree[k].append(d)] on a [defaultdict(list)]. *)
Definition tree_append (k : Z) (d : Event.t)
    (tree : gmap Z (list Event.t)) : gmap Z (list Event.t) :=
  <[k := default [] (tree !! k) ++ [d]]> tree.

(** The bucket an event goes to, and the total in force after it. *)
Definition bucket_key (verb : Spoolverb.t) : Z :=
  if decide (Spoolverb.action verb ≠ "EDITIONS")
  then Spoolverb.edition_number verb else 0.

Definition announce (verb : Spoolverb.t) (number_editions : Z) : Z :=
  if decide (Spoolverb.action verb ≠ "EDITIONS")
  then number_editions else Spoolverb.num_editions verb.

(** The total that a run of verbs announces: that of the last EDITIONS verb,
    and 0 when there is none. *)
Definition is_editions (verb : Spoolverb.t) : bool :=
  String.eqb (Spoolverb.action verb) "EDITIONS".

Definition announced (verbs : list Spoolverb.t) : Z :=
  match last (List.filter is_editions verbs) with
  | Some verb => Spoolverb.num_editions verb
  | None => 0
  end.

Section History.
Context {VI : VerbInterpreter} {TS : Transactions}.

(** The verb of a transaction, as [history] decodes it. *)
Definition tx_verb (tx : string) : result Spoolverb.t :=
  verb_str ← check_script (Tx.vouts (get_tx tx));
  from_verb verb_str.

(** [d] is the record that [history] builds for the transaction [tx], but
    for its [number_editions]. *)
Definition record_of (tx : string) (d : Event.t) : Prop :=
  exists verb,
    check_script (Tx.vouts (get_tx tx)) = Ok (Event.verb d) /\
    from_verb (Event.verb d) = Ok verb /\
    _get_addresses (get_tx tx)
      = Ok (Event.from_address d, Event.to_address d, Event.piece_address d) /\
    Event.txid d = Tx.txid (get_tx tx) /\
    Event.timestamp_utc d = Tx.time (get_tx tx) /\
    Event.action d = Spoolverb.action verb /\
    Event.edition_number d
      = (if decide (Spoolverb.action verb = "EDITIONS") then 0
         else Spoolverb.edition_number verb).

(** A transaction that [history] can process, and one that makes it raise
    [e]: the scanner and the verb interpreter come first, the address
    resolver after them. *)
Definition processes (tx : string) : Prop :=
  (exists verb, tx_verb tx = Ok verb) /\
  (exists r, _get_addresses (get_tx tx) = Ok r).

Definition fails_with (tx : string) (e : exn) : Prop :=
  tx_verb tx = Raise e \/
  ((exists verb, tx_verb tx = Ok verb) /\ _get_addresses (get_tx tx) = Raise e).

(** One turn of the first [for] loop of [history]. *)
Definition history_step (tx : string)
    (st : gmap Z (list Event.t) * Z) : result (gmap Z (list Event.t) * Z) :=
  let '(tree, number_editions) := st in
  let _tx := get_tx tx in
  let txid := Tx.txid _tx in
  verb_str ← check_script (Tx.vouts _tx);
  verb ← from_verb verb_str;
  '(from_address, to_address, piece_address) ← _get_addresses _tx;
  let timestamp_utc := Tx.time _tx in
  let action := Spoolverb.action verb in
  let edition_number := bucket_key verb in
  let number_editions := announce verb number_editions in
  Ok (tree_append edition_number
        (Event.mk txid verb_str from_address to_address piece_address
           timestamp_utc action number_editions edition_number) tree,
      number_editions).

Fixpoint history_loop (txs : list string)
    (st : gmap Z (list Event.t) * Z) : result (gmap Z (list Event.t) * Z) :=
  match txs with
  | [] => Ok st
  | tx :: txs' => st' ← history_step tx st; history_loop txs' st'
  end.

(** The second loop: every record gets the number of editions. *)
Definition backfill (number_editions : Z)
    (tree : gmap Z (list Event.t)) : gmap Z (list Event.t) :=
  fmap (M := list) (Event.update_number_editions number_editions) <$> tree.

Definition history (hash : string) : result (gmap Z (list Event.t)) :=
  let txs := get_transactions hash in
  '(tree, number_editions) ← history_loop txs (∅, 0);
  Ok (backfill number_editions tree).
End History.

(** Every event sits in the bucket of its own [edition_number], and the
    EDITIONS events sit in bucket 0. *)
Definition well_bucketed (tree : gmap Z (list Event.t)) : Prop :=
  forall e bucket d, tree !! e = Some bucket -> d ∈ bucket ->
    Event.edition_number d = e /\ (Event.action d = "EDITIONS" -> e = 0).

(** ** The chain extractor *)

(** [sorted(tree.get(edition_number, []), key=lambda d: d['timestamp_utc'])] *)
Definition chain (tree : gmap Z (list Event.t)) (edition_number : Z)
    : list Event.t :=
  sorted Event.timestamp_utc (default [] (tree !! edition_number)).

(** ** Lists as mutable objects, and [strip_loan] *)

(** [strip_loan] pops from the list it is handed, so lists live in a store
    and are passed by reference. *)
Definition loc : Type := positive.

Definition is_loan (d : Event.t) : bool := String.eqb (Event.action d) "LOAN".

(** [chain.pop()] *)
Definition list_pop (chain : loc) (c : list Event.t)
    (h : gmap loc (list Event.t)) : gmap loc (list Event.t) :=
  <[chain := removelast c]> h.

(** The [while] loop of [strip_loan]. [None] stands for a reference to no
    list or for a loop cut short by [fuel]; neither happens when [chain] is
    in the store, see [strip_loan_terminates]. *)
Fixpoint strip_loan_loop (fuel : nat) (chain : loc)
    (h : gmap loc (list Event.t))
    : option (result loc * gmap loc (list Event.t)) :=
  match fuel with
  | O => None
  | S fuel' =>
      match h !! chain with
      | None => None
      | Some c =>
          match last c with
          | None => Some (Raise IndexError, h)
          | Some d =>
              if is_loan d then strip_loan_loop fuel' chain (list_pop chain c h)
              else Some (Ok chain, h)
          end
      end
  end.

Definition strip_loan (chain : loc) (h : gmap loc (list Event.t))
    : option (result loc * gmap loc (list Event.t)) :=
  strip_loan_loop (S (length (default [] (h !! chain)))) chain h.

(** A chain that is empty or ends in an event that is no loan: what is
    left of a chain once its trailing loans are gone. *)
Definition settled (c : list Event.t) : Prop :=
  c = [] \/ exists d, last c = Some d /\ is_loan d = false.

(** [strip_loan(strip_loan(c))]: the second call gets what the first one
    returns, in the store the first one leaves. *)
Definition strip_loan_twice (chain : loc) (h : gmap loc (list Event.t))
    : option (result loc * gmap loc (list Event.t)) :=
  match strip_loan chain h with
  | Some (Ok chain', h') => strip_loan chain' h'
  | r => r
  end.

(** A history tree whose buckets are lists of the store. *)
Definition deref (h : gmap loc (list Event.t)) (tree : gmap Z loc)
    : gmap Z (list Event.t) :=
  omap (fun b => h !! b) tree.

(** A new list object: [sorted] returns one. *)
Definition alloc (c : list Event.t) (h : gmap loc (list Event.t))
    : loc * gmap loc (list Event.t) :=
  let l := fresh (dom h) in (l, <[l := c]> h).

(** [chain(tree, edition_number)] on a tree of the store. *)
Definition chain_ref (tree : gmap Z loc) (edition_number : Z)
    (h : gmap loc (list Event.t)) : loc * gmap loc (list Event.t) :=
  alloc (chain (deref h tree) edition_number) h.

(** [strip_loan(chain(tree, edition_number))] *)
Definition strip_loan_of_chain (tree : gmap Z loc) (edition_number : Z)
    (h : gmap loc (list Event.t))
    : option (result loc * gmap loc (list Event.t)) :=
  let '(c, h') := chain_ref tree edition_number h in strip_loan c h'.

(** ** Sample data *)

Module Sample.
(** A codec for the samples: it knows five payloads. *)
Definition decode (verb : list byte) : result Spoolverb.t :=
  let s := string_of_list_byte verb in
  if String.eqb s "REGISTER/1" then Ok (Spoolverb.mk "REGISTER" 1 0)
  else if String.eqb s "TRANSFER/1" then Ok (Spoolverb.mk "TRANSFER" 1 0)
  else if String.eqb s "LOAN/2" then Ok (Spoolverb.mk "LOAN" 2 0)
  else if String.eqb s "EDITIONS3" then Ok (Spoolverb.mk "EDITIONS" 0 3)
  else if String.eqb s "BURN/1" then Ok (Spoolverb.mk "BURN" 1 0)
  else Raise SpoolverbError.

#[export] Instance codec : VerbInterpreter := {|
  from_verb := decode;
  supported_actions := ["REGISTER"; "TRANSFER"; "LOAN"; "EDITIONS"]
|}.

Definition pay (k : Z) (a : string) : Vout.t :=
  Vout.mk k a "76a91488ac".
Definition data (k : Z) (h : string) : Vout.t := Vout.mk k "" h.

Definition register_hex : string := "6a0a52454749535445522f31".
Definition transfer_hex : string := "6a0a5452414e534645522f31".
Definition loan_hex : string := "6a064c4f414e2f32".
Definition editions_hex : string := "6a0945444954494f4e5333".
Definition burn_hex : string := "6a064255524e2f31".
(** An odd number of digits after the four that are skipped. *)
Definition odd_hex : string := "6a04f".
(** The payload [hello], which the codec does not know. *)
Definition unknown_hex : string := "6a0568656c6c6f".
(** A character that is not ASCII (code 233) after the first four. *)
Definition latin_hex : string :=
  String.append "6a02" (String (ascii_of_N 233) "0").

Definition tx_register : Tx.t :=
  Tx.mk "t1" [Vin.mk "alice"]
    [data 2 register_hex; pay 1 "bob"; pay 0 "piece"] 100.
Definition tx_editions : Tx.t :=
  Tx.mk "t2" [Vin.mk "alice"; Vin.mk "alice"]
    [pay 0 "piece"; pay 1 "alice"; data 2 editions_hex] 50.
Definition tx_transfer : Tx.t :=
  Tx.mk "t3" [Vin.mk "bob"]
    [pay 0 "piece"; pay 1 "carol"; data 2 transfer_hex] 200.
Definition tx_loan : Tx.t :=
  Tx.mk "t4" [Vin.mk "carol"]
    [pay 0 "piece"; pay 1 "dave"; data 2 loan_hex] 300.
(** One output besides the data output. *)
Definition tx_single : Tx.t :=
  Tx.mk "t5" [Vin.mk "alice"] [pay 0 "piece"; data 1 register_hex] 400.
(** The data output alone. *)
Definition tx_bare : Tx.t :=
  Tx.mk "t6" [Vin.mk "alice"] [data 0 register_hex] 500.
(** Inputs from two addresses. *)
Definition tx_two_senders : Tx.t :=
  Tx.mk "t7" [Vin.mk "alice"; Vin.mk "mallory"]
    [pay 0 "piece"; pay 1 "bob"; data 2 register_hex] 600.

Definition lookup_tx (txid : string) : Tx.t :=
  if String.eqb txid "t1" then tx_register
  else if String.eqb txid "t2" then tx_editions
  else if String.eqb txid "t3" then tx_transfer
  else if String.eqb txid "t4" then tx_loan
  else if String.eqb txid "t5" then tx_single
  else if String.eqb txid "t6" then tx_bare
  else tx_two_senders.

(** The piece [announced] has an EDITIONS transaction, [plain] has none. *)
#[export] Instance source : Transactions := {|
  get_transactions hash :=
    if String.eqb hash "announced" then ["t1"; "t2"; "t3"; "t4"]
    else if String.eqb hash "plain" then ["t3"; "t1"]
    else [];
  get_tx := lookup_tx
|}.

Definition ev (action : string) (time : Z) : Event.t :=
  Event.mk "" [] "" "" "" time action 0 1.

(** A store with one chain, [REGISTER, TRANSFER, LOAN, LOAN], and a tree
    whose bucket 1 is that list. *)
Definition store : gmap loc (list Event.t) :=
  {[ 1%positive := [ev "REGISTER" 0; ev "TRANSFER" 1; ev "LOAN" 2; ev "LOAN" 3] ]}.
Definition stripped : gmap loc (list Event.t) :=
  {[ 1%positive := [ev "REGISTER" 0; ev "TRANSFER" 1] ]}.
Definition tree_ref : gmap Z loc := {[ 1 := 1%positive ]}.
(** A store whose one chain has loans only. *)
Definition lent : gmap loc (list Event.t) :=
  {[ 1%positive := [ev "LOAN" 0; ev "LOAN" 1] ]}.

(** A source whose feed has a transaction with two senders in the middle. *)
Definition source_two_senders : Transactions := {|
  get_transactions hash := ["t1"; "t7"; "t6"];
  get_tx := lookup_tx
|}.

(** A store whose chain is out of time order, with a loan in the middle. *)
Definition shuffled : gmap loc (list Event.t) :=
  {[ 1%positive := [ev "LOAN" 3; ev "TRANSFER" 1; ev "LOAN" 0; ev "REGISTER" 0] ]}.
End Sample.

(** * Properties *)

(** ** [sorted] *)

Section SortedFacts.
Context {A : Type} (key : A -> Z).

Lemma insert_by_Permutation x l : insert_by key x l ≡ₚ x :: l.
Proof.
  induction l as [|y l IH]; simpl; [done|].
  destruct (key x <=? key y); [done|].
  rewrite IH. apply Permutation_swap.
Qed.

Lemma sorted_Permutation l : sorted key l ≡ₚ l.
Proof.
  induction l as [|x l IH]; simpl; [done|].
  rewrite insert_by_Permutation. by f_equiv.
Qed.

Lemma sorted_length l : length (sorted key l) = length l.
Proof. apply Permutation_length, sorted_Permutation. Qed.

Lemma insert_by_StronglySorted x l :
  StronglySorted (key_le key) l -> StronglySorted (key_le key) (insert_by key x l).
Proof.
  induction 1 as [|y l Hl IH Hy]; simpl.
  - repeat constructor.
  - destruct (Z.leb_spec (key x) (key y)) as [Hxy|Hxy].
    + constructor; [by constructor|].
      constructor; [done|].
      eapply Forall_impl; [exact Hy|]. unfold key_le. intros z Hz. lia.
    + constructor; [done|].
      rewrite insert_by_Permutation.
      constructor; [unfold key_le; lia | done].
Qed.

Lemma sorted_StronglySorted l : StronglySorted (key_le key) (sorted key l).
Proof.
  induction l as [|x l IH]; simpl; [constructor|].
  by apply insert_by_StronglySorted.
Qed.

(** The sort is stable: records with the same key keep their order. *)
Lemma insert_by_stable k x l :
  filter (fun y => key y = k) (insert_by key x l)
  = filter (fun y => key y = k) (x :: l).
Proof.
  induction l as [|y l IH]; simpl; [done|].
  destruct (Z.leb_spec (key x) (key y)) as [Hxy|Hxy]; [done|].
  rewrite (filter_cons _ y), IH, !filter_cons.
  repeat case_decide; try done; lia.
Qed.

Lemma sorted_stable k l :
  filter (fun y => key y = k) (sorted key l) = filter (fun y => key y = k) l.
Proof.
  induction l as [|x l IH]; simpl; [done|].
  by rewrite insert_by_stable, !filter_cons, IH.
Qed.
End SortedFacts.

(** ** The address resolver *)

Lemma removelast_snoc {A} (l : list A) x : removelast (l ++ [x]) = l.
Proof. apply removelast_last. Qed.

Lemma removelast_short {A} (l : list A) :
  (length l < 2)%nat -> removelast l = [].
Proof. destruct l as [|x [|y l]]; simpl; [done | done | lia]. Qed.

Lemma removelast_length {A} (l : list A) :
  length (removelast l) = (length l - 1)%nat.
Proof.
  induction l as [|x l IH] using rev_ind; [done|].
  rewrite removelast_snoc, length_app. simpl. lia.
Qed.

Lemma senders_distinct tx v1 v2 :
  v1 ∈ Tx.vins tx -> v2 ∈ Tx.vins tx -> Vin.address v1 ≠ Vin.address v2 ->
  size (senders tx) ≠ 1%nat.
Proof.
  intros H1 H2 Hne Hsize. apply size_1_elem_of in Hsize as [a Ha].
  assert (Hin : forall v, v ∈ Tx.vins tx -> Vin.address v = a).
  { intros v Hv.
    assert (Vin.address v ∈ senders tx) as Hs.
    { unfold senders. apply elem_of_list_to_set, list_elem_of_fmap. eauto. }
    rewrite Ha in Hs. by apply elem_of_singleton in Hs. }
  rewrite (Hin _ H1), (Hin _ H2) in Hne. done.
Qed.

Lemma set_pop_singleton (a : string) : set_pop {[a]} = Ok a.
Proof. unfold set_pop. by rewrite elements_singleton. Qed.

Lemma get_addresses_unfold tx a :
  senders tx = {[a]} ->
  _get_addresses tx =
    match head (ordered_vouts tx), last (ordered_vouts tx) with
    | Some p, Some t => Ok (a, Vout.address t, Vout.address p)
    | _, _ => Raise IndexError
    end.
Proof.
  intros Ha. unfold _get_addresses. rewrite Ha.
  rewrite decide_False by (rewrite size_singleton; auto).
  unfold index_first, index_last.
  destruct (head _); simpl; [|done].
  destruct (last _); simpl; [|done].
  by rewrite set_pop_singleton.
Qed.

(** C3: inputs from more than one address make the resolver raise
    [InvalidTransactionError], as does any number of distinct sender
    addresses other than one; when it returns, every input has the one
    address it returns as sender. *)
Theorem get_addresses_single_sender tx :
  (forall v1 v2, v1 ∈ Tx.vins tx -> v2 ∈ Tx.vins tx ->
     Vin.address v1 ≠ Vin.address v2 ->
     _get_addresses tx = Raise InvalidTransactionError) /\
  (size (senders tx) ≠ 1%nat ->
     _get_addresses tx = Raise InvalidTransactionError) /\
  (forall a t p, _get_addresses tx = Ok (a, t, p) ->
     size (senders tx) = 1%nat /\
     Tx.vins tx ≠ [] /\ forall v, v ∈ Tx.vins tx -> Vin.address v = a).
Proof.
  assert (Hraise : size (senders tx) ≠ 1%nat ->
                   _get_addresses tx = Raise InvalidTransactionError).
  { intros Hne. unfold _get_addresses. by rewrite decide_True. }
  split; [|split]; [|done|].
  - intros v1 v2 H1 H2 Hne. apply Hraise.
    exact (senders_distinct tx v1 v2 H1 H2 Hne).
  - intros a t p Hok.
    destruct (decide (size (senders tx) = 1%nat)) as [Hsz|Hsz];
      [|rewrite Hraise in Hok; done].
    split; [done|].
    destruct (size_1_elem_of _ Hsz) as [b Hb].
    assert (Hs : senders tx = {[b]}) by by apply leibniz_equiv.
    rewrite (get_addresses_unfold _ _ Hs) in Hok.
    destruct (head _); [|done]. destruct (last _); [|done]. simplify_eq.
    split.
    + intros Hnil. unfold senders in Hs. rewrite Hnil in Hs. simpl in Hs.
      assert (a ∈ (∅ : gset string)) by (rewrite Hs; set_solver). set_solver.
    + intros v Hv.
      assert (Vin.address v ∈ senders tx) as Hin.
      { unfold senders. apply elem_of_list_to_set, list_elem_of_fmap. eauto. }
      rewrite Hs in Hin. by apply elem_of_singleton in Hin.
Qed.

Lemma get_addresses_single_sender_witness :
  _get_addresses Sample.tx_two_senders = Raise InvalidTransactionError.
Proof.
  apply (proj1 (get_addresses_single_sender Sample.tx_two_senders)
           (Vin.mk "alice") (Vin.mk "mallory")).
  - apply list_elem_of_here.
  - apply list_elem_of_further, list_elem_of_here.
  - discriminate.
Defined.

Lemma senders_single tx :
  size (senders tx) = 1%nat -> exists a, senders tx = {[a]}.
Proof.
  intros Hsz. destruct (size_1_elem_of _ Hsz) as [a Ha].
  exists a. by apply leibniz_equiv.
Qed.

Lemma last_removelast {A} (l : list A) x :
  last l = Some x -> l = removelast l ++ [x].
Proof.
  induction l as [|y l IH] using rev_ind; [done|].
  rewrite last_snoc, removelast_snoc. by intros [= ->].
Qed.

(** C4: with a single sender address, the outputs are put in ascending
    order of [n] (a stable sort: the same outputs, reordered), the last one
    is dropped, and the first and last of those left give [piece_address]
    and [to_address]; when just one output is left after dropping the last,
    the two addresses are the same. *)
Theorem get_addresses_roles tx :
  size (senders tx) = 1%nat ->
  sorted Vout.n (Tx.vouts tx) ≡ₚ Tx.vouts tx /\
  StronglySorted (key_le Vout.n) (sorted Vout.n (Tx.vouts tx)) /\
  (forall final, last (sorted Vout.n (Tx.vouts tx)) = Some final ->
     sorted Vout.n (Tx.vouts tx) = ordered_vouts tx ++ [final]) /\
  (forall p t,
     head (ordered_vouts tx) = Some p -> last (ordered_vouts tx) = Some t ->
     exists a, senders tx = {[a]} /\
       _get_addresses tx = Ok (a, Vout.address t, Vout.address p)) /\
  (length (ordered_vouts tx) = 1%nat ->
     exists a p, ordered_vouts tx = [p] /\
       _get_addresses tx = Ok (a, Vout.address p, Vout.address p)).
Proof.
  intros Hsz. destruct (senders_single _ Hsz) as [a Ha].
  split; [apply sorted_Permutation|].
  split; [apply sorted_StronglySorted|].
  split; [intros final Hfinal; by apply last_removelast|].
  split.
  - intros p t Hp Ht. exists a. split; [done|].
    by rewrite (get_addresses_unfold _ _ Ha), Hp, Ht.
  - intros Hlen. exists a.
    destruct (ordered_vouts tx) as [|p [|q l]] eqn:Hvouts; simplify_eq/=.
    exists p. split; [done|].
    by rewrite (get_addresses_unfold _ _ Ha), Hvouts.
Qed.

Lemma get_addresses_roles_witness :
  size (senders Sample.tx_single) = 1%nat /\
  exists a p, ordered_vouts Sample.tx_single = [p] /\
    _get_addresses Sample.tx_single = Ok (a, Vout.address p, Vout.address p).
Proof.
  split; [by vm_compute|].
  refine (proj2 (proj2 (proj2 (proj2
            (get_addresses_roles Sample.tx_single _)))) _); by vm_compute.
Defined.

(** C10: with a single sender address and fewer than two outputs, nothing
    is left once the last output is dropped, and reading the first of the
    outputs left raises [IndexError]. *)
Theorem get_addresses_too_few_outputs tx :
  size (senders tx) = 1%nat -> (length (Tx.vouts tx) < 2)%nat ->
  ordered_vouts tx = [] /\ _get_addresses tx = Raise IndexError.
Proof.
  intros Hsz Hlen. destruct (senders_single _ Hsz) as [a Ha].
  assert (Hnil : ordered_vouts tx = []).
  { unfold ordered_vouts. apply removelast_short. by rewrite sorted_length. }
  split; [done|].
  by rewrite (get_addresses_unfold _ _ Ha), Hnil.
Qed.

Lemma get_addresses_too_few_outputs_witness :
  ordered_vouts Sample.tx_bare = [] /\
  _get_addresses Sample.tx_bare = Raise IndexError.
Proof.
  apply (get_addresses_too_few_outputs Sample.tx_bare); [by vm_compute|].
  simpl. lia.
Defined.

(** ** The output scanner *)

Lemma candidates_spec vouts v :
  v ∈ candidates vouts <-> v ∈ vouts /\ startswith "6a" (Vout.hex v) = true.
Proof.
  unfold candidates. rewrite !list_elem_of_In, filter_In, <- in_rev. tauto.
Qed.

(** The candidates are the outputs that start with [6a], last one first. *)
Lemma candidates_rev vouts :
  candidates vouts
  = rev (List.filter (fun v => startswith "6a" (Vout.hex v)) vouts).
Proof.
  unfold candidates. induction vouts as [|v vouts IH]; simpl; [done|].
  rewrite List.filter_app, IH. simpl.
  destruct (startswith _ _); simpl; [done|]. by rewrite app_nil_r.
Qed.

Section ScannerFacts.
Context {VI : VerbInterpreter}.

Lemma scan_cons vout rest :
  scan (vout :: rest) =
    match payload_action vout with
    | Ok (verb, action) => if supported action then Ok verb else scan rest
    | Raise e => Raise e
    end.
Proof.
  unfold payload_action. simpl.
  destruct (decode_op_return _) as [verb|e]; simpl; [|done].
  by destruct (from_verb verb).
Qed.

Lemma scan_passed_over pre rest :
  Forall passed_over pre -> scan (pre ++ rest) = scan rest.
Proof.
  induction 1 as [|v pre (verb & action & Hv & Hno) _ IH]; [done|].
  rewrite <- app_comm_cons, scan_cons, Hv, Hno. exact IH.
Qed.

(** C5, as the code has it: when every candidate decodes and none to a
    supported action, [check_script] raises its own exception; when the
    candidates before one that decodes to a supported action all decode,
    it returns the payload of that one; and a candidate that fails to
    decode before any supported one is found makes [check_script] raise
    the decoding error. *)
Theorem check_script_scan vouts :
  (Forall passed_over (candidates vouts) ->
     check_script vouts = Raise InvalidAscribeTransaction) /\
  (forall pre v post verb action,
     candidates vouts = pre ++ v :: post -> Forall passed_over pre ->
     payload_action v = Ok (verb, action) -> supported action = true ->
     check_script vouts = Ok verb) /\
  (forall pre v post e,
     candidates vouts = pre ++ v :: post -> Forall passed_over pre ->
     payload_action v = Raise e ->
     check_script vouts = Raise e).
Proof.
  unfold check_script. split; [|split].
  - intros Hall. rewrite <- (app_nil_r (candidates vouts)).
    by rewrite scan_passed_over.
  - intros pre v post verb action -> Hpre Hv Hyes.
    by rewrite scan_passed_over, scan_cons, Hv, Hyes.
  - intros pre v post e -> Hpre Hv.
    by rewrite scan_passed_over, scan_cons, Hv.
Qed.
End ScannerFacts.

Lemma check_script_scan_witness :
  check_script (VI := Sample.codec) [Sample.data 0 Sample.register_hex; Sample.data 1 Sample.burn_hex]
  = Ok (list_byte_of_string "REGISTER/1").
Proof.
  refine (proj1 (proj2 (check_script_scan (VI := Sample.codec) _))
            [Sample.data 1 Sample.burn_hex] (Sample.data 0 Sample.register_hex)
            [] _ "REGISTER" _ _ _ _); [by vm_compute| |by vm_compute..].
  constructor; [|constructor].
  exists (list_byte_of_string "BURN/1"), "BURN". by vm_compute.
Defined.

(** C5 fails as stated: the first output qualifies and decodes to the
    supported action REGISTER, yet [check_script] does not return its
    payload, since the candidate scanned before it does not decode; and an
    output list whose one candidate does not decode raises the decoding
    error, not the exception of [check_script]. *)
Lemma check_script_decode_error_first :
  candidates [Sample.data 0 Sample.register_hex; Sample.data 1 Sample.odd_hex]
    = [Sample.data 1 Sample.odd_hex; Sample.data 0 Sample.register_hex] /\
  payload_action (VI := Sample.codec) (Sample.data 0 Sample.register_hex)
    = Ok (list_byte_of_string "REGISTER/1", "REGISTER") /\
  supported (VI := Sample.codec) "REGISTER" = true /\
  payload_action (VI := Sample.codec) (Sample.data 1 Sample.odd_hex) = Raise BinasciiError /\
  check_script (VI := Sample.codec) [Sample.data 0 Sample.register_hex; Sample.data 1 Sample.odd_hex]
    = Raise BinasciiError /\
  check_script (VI := Sample.codec) [Sample.data 0 Sample.odd_hex] = Raise BinasciiError /\
  check_script (VI := Sample.codec)
    [Sample.data 0 Sample.register_hex; Sample.data 1 Sample.unknown_hex]
    = Raise SpoolverbError.
Proof. repeat split; by vm_compute. Qed.

(** ** The chain extractor *)

(** C6: [chain] returns the events of the bucket (all of them, each as
    often as it is there), in non-decreasing order of timestamp, events
    with the same timestamp in the order of the bucket; for an edition the
    tree does not have it returns the empty list. *)
Theorem chain_sorted (tree : gmap Z (list Event.t)) (edition_number : Z) :
  StronglySorted (key_le Event.timestamp_utc) (chain tree edition_number) /\
  chain tree edition_number ≡ₚ default [] (tree !! edition_number) /\
  (forall t, filter (fun d => Event.timestamp_utc d = t) (chain tree edition_number)
             = filter (fun d => Event.timestamp_utc d = t)
                 (default [] (tree !! edition_number))) /\
  (tree !! edition_number = None -> chain tree edition_number = []).
Proof.
  unfold chain. split; [apply sorted_StronglySorted|].
  split; [apply sorted_Permutation|].
  split; [intros t; apply sorted_stable|].
  by intros ->.
Qed.

Lemma chain_sorted_witness :
  chain (deref Sample.store Sample.tree_ref) 7 = [].
Proof.
  apply (proj2 (proj2 (proj2 (chain_sorted _ 7)))). by vm_compute.
Defined.

(** ** The tree builder *)

Lemma is_editions_true verb :
  is_editions verb = true <-> Spoolverb.action verb = "EDITIONS".
Proof. apply String.eqb_eq. Qed.

Lemma is_editions_false verb :
  is_editions verb = false <-> Spoolverb.action verb ≠ "EDITIONS".
Proof. apply String.eqb_neq. Qed.

Lemma announce_editions verb k :
  Spoolverb.action verb = "EDITIONS" ->
  bucket_key verb = 0 /\ announce verb k = Spoolverb.num_editions verb.
Proof. intros Hv. unfold bucket_key, announce. by rewrite !decide_False by auto. Qed.

Lemma announce_other verb k :
  Spoolverb.action verb ≠ "EDITIONS" ->
  bucket_key verb = Spoolverb.edition_number verb /\ announce verb k = k.
Proof. intros Hv. unfold bucket_key, announce. by rewrite !decide_True. Qed.

Lemma announced_snoc verbs verb :
  announced (verbs ++ [verb]) = announce verb (announced verbs).
Proof.
  destruct (is_editions verb) eqn:Hv.
  - pose proof Hv as Hv'. apply is_editions_true in Hv'.
    destruct (announce_editions verb (announced verbs) Hv') as [_ ->].
    unfold announced. rewrite List.filter_app. simpl.
    by rewrite Hv, last_snoc.
  - pose proof Hv as Hv'. apply is_editions_false in Hv'.
    destruct (announce_other verb (announced verbs) Hv') as [_ ->].
    unfold announced. rewrite List.filter_app. simpl.
    by rewrite Hv, app_nil_r.
Qed.

Lemma announced_none verbs :
  Forall (fun v => Spoolverb.action v ≠ "EDITIONS") verbs -> announced verbs = 0.
Proof.
  induction verbs as [|v verbs IH] using rev_ind; [done|].
  rewrite Forall_app, Forall_singleton. intros [Hverbs Hv].
  rewrite announced_snoc. destruct (announce_other v (announced verbs) Hv) as [_ ->].
  auto.
Qed.

Lemma announced_last pre verb post :
  Spoolverb.action verb = "EDITIONS" ->
  Forall (fun v => Spoolverb.action v ≠ "EDITIONS") post ->
  announced (pre ++ verb :: post) = Spoolverb.num_editions verb.
Proof.
  intros Hv. induction post as [|v post IH] using rev_ind; intros Hpost.
  - rewrite announced_snoc.
    by destruct (announce_editions verb (announced pre) Hv) as [_ ->].
  - rewrite Forall_app, Forall_singleton in Hpost. destruct Hpost as [Hpost Hlast].
    rewrite app_comm_cons, app_assoc, announced_snoc.
    destruct (announce_other v (announced (pre ++ verb :: post)) Hlast) as [_ ->].
    auto.
Qed.

Lemma tree_append_lookup k d (tree : gmap Z (list Event.t)) :
  tree_append k d tree !! k = Some (default [] (tree !! k) ++ [d]).
Proof. unfold tree_append. apply lookup_insert_eq. Qed.

Lemma tree_append_lookup_ne k k' d (tree : gmap Z (list Event.t)) :
  k' ≠ k -> tree_append k d tree !! k' = tree !! k'.
Proof. intros Hne. unfold tree_append. by apply lookup_insert_ne. Qed.

Section HistoryFacts.
Context {VI : VerbInterpreter} {TS : Transactions}.

Lemma history_step_inv tx tree k st' :
  history_step tx (tree, k) = Ok st' ->
  exists verb_str verb a t p,
    check_script (Tx.vouts (get_tx tx)) = Ok verb_str /\
    from_verb verb_str = Ok verb /\
    _get_addresses (get_tx tx) = Ok (a, t, p) /\
    st' = (tree_append (bucket_key verb)
             (Event.mk (Tx.txid (get_tx tx)) verb_str a t p
                (Tx.time (get_tx tx)) (Spoolverb.action verb)
                (announce verb k) (bucket_key verb)) tree,
           announce verb k).
Proof.
  unfold history_step.
  destruct (check_script _) as [verb_str|]; simpl; [|done].
  destruct (from_verb verb_str) as [verb|] eqn:Hverb; simpl; [|done].
  destruct (_get_addresses _) as [[[a t] p]|]; simpl; [|done].
  intros [= <-]. exists verb_str, verb, a, t, p. by repeat split.
Qed.

Lemma history_step_verb tx tree k tree' k' :
  history_step tx (tree, k) = Ok (tree', k') ->
  exists verb, tx_verb tx = Ok verb /\ k' = announce verb k.
Proof.
  intros (verb_str & verb & a & t & p & Hs & Hv & _ & [= -> ->])%history_step_inv.
  exists verb. split; [|done]. unfold tx_verb. by rewrite Hs.
Qed.

Lemma history_loop_announced txs : forall tree k tree' k' seen,
  k = announced seen ->
  history_loop txs (tree, k) = Ok (tree', k') ->
  exists verbs,
    Forall2 (fun tx verb => tx_verb tx = Ok verb) txs verbs /\
    k' = announced (seen ++ verbs).
Proof.
  induction txs as [|tx txs IH]; intros tree k tree' k' seen Hk Hloop.
  - exists []. split; [constructor|]. rewrite app_nil_r.
    simpl in Hloop. congruence.
  - change (history_step tx (tree, k) ≫= history_loop txs = Ok (tree', k'))
      in Hloop.
    destruct (history_step tx (tree, k)) as [[tree1 k1]|] eqn:Hstep;
      simpl in Hloop; [|done].
    destruct (history_step_verb _ _ _ _ _ Hstep) as (verb & Hverb & ->).
    destruct (IH tree1 (announce verb k) tree' k' (seen ++ [verb]))
      as (verbs & Hall & ->); [by rewrite announced_snoc, Hk | done |].
    exists (verb :: verbs). split; [by constructor|].
    by rewrite <- app_assoc.
Qed.

Lemma backfill_number_editions k (tree : gmap Z (list Event.t)) e bucket d :
  backfill k tree !! e = Some bucket -> d ∈ bucket ->
  Event.number_editions d = k.
Proof.
  unfold backfill. rewrite lookup_fmap.
  destruct (tree !! e) as [b|]; simpl; [|done].
  intros [= <-] (d0 & -> & _)%list_elem_of_fmap. done.
Qed.

(** C1: when [history] returns, every event of every bucket carries the
    total that the verbs of the piece announce: the number of editions
    of the EDITIONS verb processed last, and 0 when no transaction has an
    EDITIONS verb. *)
Theorem history_number_editions hash tree :
  history hash = Ok tree ->
  exists verbs,
    Forall2 (fun tx verb => tx_verb tx = Ok verb)
      (get_transactions hash) verbs /\
    (forall e bucket d, tree !! e = Some bucket -> d ∈ bucket ->
       Event.number_editions d = announced verbs) /\
    (Forall (fun v => Spoolverb.action v ≠ "EDITIONS") verbs ->
       forall e bucket d, tree !! e = Some bucket -> d ∈ bucket ->
         Event.number_editions d = 0) /\
    (forall pre verb post, verbs = pre ++ verb :: post ->
       Spoolverb.action verb = "EDITIONS" ->
       Forall (fun v => Spoolverb.action v ≠ "EDITIONS") post ->
       forall e bucket d, tree !! e = Some bucket -> d ∈ bucket ->
         Event.number_editions d = Spoolverb.num_editions verb).
Proof.
  unfold history.
  destruct (history_loop _ _) as [[tree0 k]|] eqn:Hloop; simpl; [|done].
  intros [= <-].
  destruct (history_loop_announced _ _ _ _ _ [] eq_refl Hloop)
    as (verbs & Hall & ->). simpl.
  exists verbs. split; [done|].
  assert (Hfill : forall e bucket d,
    backfill (announced verbs) tree0 !! e = Some bucket -> d ∈ bucket ->
    Event.number_editions d = announced verbs)
    by (intros e bucket d; apply backfill_number_editions).
  split; [done|]. split.
  - intros Hnone e bucket d He Hd.
    rewrite <- (announced_none verbs Hnone). eauto.
  - intros pre verb post -> Hverb Hpost e bucket d He Hd.
    rewrite <- (announced_last pre verb post Hverb Hpost). eauto.
Qed.

(** C2: one transaction's event goes to bucket 0 when its action is
    EDITIONS, and the total is then set to the number of editions it
    announces; otherwise it goes to the bucket of the verb's own
    [edition_number] and the total stays. The bucket gets the event at
    its end, the other buckets are not touched. *)
Theorem history_step_bucket tx tree k tree' k' :
  history_step tx (tree, k) = Ok (tree', k') ->
  exists verb d e,
    tx_verb tx = Ok verb /\
    tree' !! e = Some (default [] (tree !! e) ++ [d]) /\
    (forall e', e' ≠ e -> tree' !! e' = tree !! e') /\
    Event.txid d = Tx.txid (get_tx tx) /\
    Event.action d = Spoolverb.action verb /\
    Event.edition_number d = e /\
    (Spoolverb.action verb = "EDITIONS" ->
       e = 0 /\ k' = Spoolverb.num_editions verb) /\
    (Spoolverb.action verb ≠ "EDITIONS" ->
       e = Spoolverb.edition_number verb /\ k' = k).
Proof.
  intros (verb_str & verb & a & t & p & Hs & Hv & _ & [= -> ->])%history_step_inv.
  eexists verb, _, (bucket_key verb).
  split; [unfold tx_verb; by rewrite Hs|].
  split; [apply tree_append_lookup|].
  split; [intros; by apply tree_append_lookup_ne|].
  repeat (split; [reflexivity|]).
  split; [apply announce_editions | apply announce_other].
Qed.
Lemma well_bucketed_append e d tree :
  well_bucketed tree ->
  Event.edition_number d = e -> (Event.action d = "EDITIONS" -> e = 0) ->
  well_bucketed (tree_append e d tree).
Proof.
  intros Htree He Hed e' bucket d' Hlook Hd'.
  destruct (decide (e' = e)) as [->|Hne].
  - rewrite tree_append_lookup in Hlook. injection Hlook as <-.
    apply elem_of_app in Hd' as [Hd'|Hd'%list_elem_of_singleton].
    + destruct (tree !! e) as [b|] eqn:Hb; simpl in Hd'; [by eapply Htree|].
      by apply elem_of_nil in Hd'.
    + by subst d'.
  - rewrite tree_append_lookup_ne in Hlook by done. by eapply Htree.
Qed.

Lemma history_step_well_bucketed tx tree k tree' k' :
  well_bucketed tree -> history_step tx (tree, k) = Ok (tree', k') ->
  well_bucketed tree'.
Proof.
  intros Htree (verb_str & verb & a & t & p & _ & _ & _ & [= -> ->])%history_step_inv.
  apply well_bucketed_append; [done..|]. simpl. intros Hverb.
  by destruct (announce_editions verb k Hverb).
Qed.

Lemma history_loop_well_bucketed txs : forall tree k tree' k',
  well_bucketed tree -> history_loop txs (tree, k) = Ok (tree', k') ->
  well_bucketed tree'.
Proof.
  induction txs as [|tx txs IH]; intros tree k tree' k' Htree Hloop.
  - simpl in Hloop. by injection Hloop as <- <-.
  - change (history_step tx (tree, k) ≫= history_loop txs = Ok (tree', k'))
      in Hloop.
    destruct (history_step tx (tree, k)) as [[tree1 k1]|] eqn:Hstep;
      simpl in Hloop; [|done].
    eapply IH; [|exact Hloop]. by eapply history_step_well_bucketed.
Qed.

Lemma backfill_well_bucketed k tree :
  well_bucketed tree -> well_bucketed (backfill k tree).
Proof.
  intros Htree e bucket d. unfold backfill. rewrite lookup_fmap.
  destruct (tree !! e) as [b|] eqn:Hb; simpl; [|done].
  intros [= <-] (d0 & -> & Hd0)%list_elem_of_fmap. simpl.
  by eapply Htree.
Qed.

(** The tree that [history] returns is well bucketed: no event is filed
    under an edition other than its own, and the EDITIONS events are in
    bucket 0. *)
Theorem history_well_bucketed hash tree :
  history hash = Ok tree -> well_bucketed tree.
Proof.
  unfold history.
  destruct (history_loop _ _) as [[tree0 k]|] eqn:Hloop; simpl; [|done].
  intros [= <-]. apply backfill_well_bucketed.
  eapply history_loop_well_bucketed; [|exact Hloop].
  intros e bucket d Hlook. by rewrite lookup_empty in Hlook.
Qed.
End HistoryFacts.

Lemma history_well_bucketed_witness :
  exists tree,
    history (VI := Sample.codec) (TS := Sample.source) "announced" = Ok tree /\
    well_bucketed tree.
Proof.
  eexists. split; [vm_compute; reflexivity|].
  apply (history_well_bucketed (VI := Sample.codec) (TS := Sample.source)
           "announced").
  vm_compute; reflexivity.
Defined.

Lemma history_number_editions_witness :
  exists tree verbs,
    history (VI := Sample.codec) (TS := Sample.source) "announced" = Ok tree /\
    Forall2 (fun tx verb => tx_verb (VI := Sample.codec) (TS := Sample.source) tx = Ok verb)
      ["t1"; "t2"; "t3"; "t4"] verbs /\
    forall e bucket d, tree !! e = Some bucket -> d ∈ bucket ->
      Event.number_editions d = announced verbs.
Proof.
  eexists. 
  assert (Hrun : history (VI := Sample.codec) (TS := Sample.source) "announced" = Ok ?[tree])
    by (vm_compute; reflexivity).
  destruct (history_number_editions (VI := Sample.codec) (TS := Sample.source)
              "announced" _ Hrun) as (verbs & Hverbs & Hall & _).
  exists verbs. split; [exact Hrun|]. split; [exact Hverbs | exact Hall].
Defined.

Lemma history_step_bucket_witness :
  exists tree' verb d,
    history_step (VI := Sample.codec) (TS := Sample.source) "t2" (∅, 0) = Ok (tree', 3) /\
    tx_verb (VI := Sample.codec) (TS := Sample.source) "t2" = Ok verb /\
    tree' !! 0 = Some [d] /\ Spoolverb.action verb = "EDITIONS".
Proof.
  eexists.
  assert (Hrun : history_step (VI := Sample.codec) (TS := Sample.source) "t2" (∅, 0)
                 = Ok (?[tree'], 3)) by (vm_compute; reflexivity).
  destruct (history_step_bucket (VI := Sample.codec) (TS := Sample.source)
              _ _ _ _ _ Hrun)
    as (verb & d & e & Hverb & Hlook & _ & _ & _ & _ & Hed & _).
  assert (Hact : Spoolverb.action verb = "EDITIONS").
  { vm_compute in Hverb. by injection Hverb as <-. }
  destruct (Hed Hact) as [-> _].
  exists verb, d. by repeat split.
Defined.

(** ** [strip_loan] *)

Lemma is_loan_true d : is_loan d = true <-> Event.action d = "LOAN".
Proof. apply String.eqb_eq. Qed.

Lemma is_loan_false d : is_loan d = false <-> Event.action d ≠ "LOAN".
Proof. apply String.eqb_neq. Qed.

Lemma trailing_loans_split (c : list Event.t) :
  exists c0 loans,
    c = c0 ++ loans /\ Forall (fun d => is_loan d = true) loans /\ settled c0.
Proof.
  induction c as [|d c IH] using rev_ind.
  - exists [], []. repeat split; [constructor | by left].
  - destruct (is_loan d) eqn:Hd.
    + destruct IH as (c0 & loans & -> & Hloans & Hc0).
      exists c0, (loans ++ [d]). rewrite app_assoc. repeat split; [|done].
      apply Forall_app. split; [done|]. by constructor.
    + exists (c ++ [d]), []. rewrite app_nil_r. repeat split; [constructor|].
      right. exists d. by rewrite last_snoc.
Qed.

Lemma strip_loan_loop_run loans : forall fuel l (h : gmap loc (list Event.t)) c0,
  h !! l = Some (c0 ++ loans) -> Forall (fun d => is_loan d = true) loans ->
  (length loans < fuel)%nat -> settled c0 ->
  strip_loan_loop fuel l h
  = Some (match c0 with [] => Raise IndexError | _ :: _ => Ok l end,
          <[l := c0]> h).
Proof.
  induction loans as [|x loans IH] using rev_ind;
    intros fuel l h c0 Hl Hloans Hfuel Hc0.
  - rewrite app_nil_r in Hl. destruct fuel as [|fuel]; [simpl in Hfuel; lia|].
    simpl. rewrite Hl, insert_id by done.
    destruct Hc0 as [->|(d & Hd & Hno)]; [done|].
    rewrite Hd, Hno. by destruct c0.
  - rewrite Forall_app, Forall_singleton in Hloans.
    destruct Hloans as [Hloans Hx].
    rewrite length_app in Hfuel. simpl in Hfuel.
    destruct fuel as [|fuel]; [lia|].
    simpl. rewrite Hl, app_assoc, last_snoc, Hx.
    unfold list_pop. rewrite removelast_snoc.
    rewrite (IH fuel l _ c0); [|apply lookup_insert_eq|done|lia|done].
    by rewrite insert_insert_eq.
Qed.

(** What a call does to the store and what it returns. *)
Lemma strip_loan_run l (h : gmap loc (list Event.t)) c :
  h !! l = Some c ->
  exists c0 loans,
    c = c0 ++ loans /\ Forall (fun d => is_loan d = true) loans /\ settled c0 /\
    strip_loan l h
    = Some (match c0 with [] => Raise IndexError | _ :: _ => Ok l end,
            <[l := c0]> h).
Proof.
  intros Hl. destruct (trailing_loans_split c) as (c0 & loans & -> & Hloans & Hc0).
  exists c0, loans. repeat split; [done..|].
  unfold strip_loan. rewrite Hl.
  apply (strip_loan_loop_run loans); [done..| |done].
  simpl. rewrite length_app. lia.
Qed.

(** The loop ends, whatever the chain: [strip_loan] returns or raises. *)
Lemma strip_loan_terminates l (h : gmap loc (list Event.t)) c :
  h !! l = Some c -> exists r h', strip_loan l h = Some (r, h').
Proof.
  intros (c0 & loans & _ & _ & _ & ->)%strip_loan_run. eauto.
Qed.

(** C7: on every chain [strip_loan] comes to an end, and what it has popped
    by then is the whole trailing run of LOAN events: the chain is what is
    left followed by LOAN events only, and what is left is empty or ends in
    an event that is no LOAN. It returns the list it was given when
    something is left, and raises [IndexError] when nothing is; so the
    list it returns is never empty and never has a LOAN in last place. *)
Theorem strip_loan_last_not_loan l (h : gmap loc (list Event.t)) c :
  h !! l = Some c ->
  exists c' loans,
    c = c' ++ loans /\
    Forall (fun d => Event.action d = "LOAN") loans /\
    (c' = [] \/ exists d, last c' = Some d /\ Event.action d ≠ "LOAN") /\
    strip_loan l h
    = Some (match c' with [] => Raise IndexError | _ :: _ => Ok l end,
            <[l := c']> h) /\
    (forall r h', strip_loan l h = Some (Ok r, h') ->
       r = l /\ h' !! r = Some c' /\
       exists d, last c' = Some d /\ Event.action d ≠ "LOAN").
Proof.
  intros Hl.
  destruct (strip_loan_run l h c Hl) as (c0 & loans & -> & Hloans & Hc0 & Hspec).
  assert (Hleft : c0 = [] \/
                  exists d, last c0 = Some d /\ Event.action d ≠ "LOAN").
  { destruct Hc0 as [->|(d & Hd & Hno)]; [by left|].
    right. exists d. by rewrite <- is_loan_false. }
  exists c0, loans. split; [done|].
  split; [eapply Forall_impl; [exact Hloans|]; intros ?; apply is_loan_true|].
  split; [done|]. split; [done|].
  intros r h' Hrun. rewrite Hspec in Hrun.
  destruct c0 as [|d0 c0]; [done|]. injection Hrun as <- <-.
  split; [done|]. split; [apply lookup_insert_eq|].
  by destruct Hleft as [|Hd].
Qed.

Lemma strip_loan_last_not_loan_witness :
  exists c' loans,
    Sample.store !! 1%positive = Some (c' ++ loans) /\
    Forall (fun d => Event.action d = "LOAN") loans /\
    (c' = [] \/ exists d, last c' = Some d /\ Event.action d ≠ "LOAN") /\
    strip_loan 1%positive Sample.store
    = Some (match c' with [] => Raise IndexError | _ :: _ => Ok 1%positive end,
            <[1%positive := c']> Sample.store).
Proof.
  destruct (strip_loan_last_not_loan 1%positive Sample.store _ eq_refl)
    as (c' & loans & Hc & Hloans & Hleft & Hrun & _).
  exists c', loans. by rewrite <- Hc.
Defined.

(** C8: a second [strip_loan] on what the first one returns changes
    nothing: the same list is returned, the store is the one the first
    call left; and when the first call raises, so does the whole. *)
Theorem strip_loan_idempotent l (h : gmap loc (list Event.t)) :
  strip_loan_twice l h = strip_loan l h.
Proof.
  unfold strip_loan_twice.
  destruct (h !! l) as [c|] eqn:Hl.
  - destruct (strip_loan_run l h c Hl) as (c0 & loans & _ & _ & Hc0 & ->).
    destruct c0 as [|d0 c0]; [done|].
    destruct (strip_loan_run l (<[l := d0 :: c0]> h) (d0 :: c0))
      as (c1 & loans1 & Hsplit & Hloans1 & Hc1 & ->); [apply lookup_insert_eq|].
    assert (loans1 = []) as ->.
    { destruct Hc0 as [|(d & Hd & Hno)]; [done|].
      destruct loans1 as [|x loans1 _] using rev_ind; [done|].
      rewrite Hsplit, app_assoc, last_snoc in Hd. injection Hd as ->.
      rewrite Forall_app, Forall_singleton in Hloans1.
      destruct Hloans1 as [_ Hx].
      congruence. }
    rewrite app_nil_r in Hsplit. subst c1. by rewrite insert_insert_eq.
  - unfold strip_loan. rewrite Hl. simpl. by rewrite Hl.
Qed.

(** C9 fails as stated: [strip_loan] pops from the list it is given. The
    chain [REGISTER, TRANSFER, LOAN, LOAN] is [REGISTER, TRANSFER] after the
    call, and so is the bucket of the tree when the chain is that bucket. *)
Lemma strip_loan_mutates_chain :
  Sample.store !! 1%positive
    = Some [Sample.ev "REGISTER" 0; Sample.ev "TRANSFER" 1;
            Sample.ev "LOAN" 2; Sample.ev "LOAN" 3] /\
  (exists h', strip_loan 1%positive Sample.store = Some (Ok 1%positive, h') /\
     h' !! 1%positive = Some [Sample.ev "REGISTER" 0; Sample.ev "TRANSFER" 1] /\
     deref h' Sample.tree_ref ≠ deref Sample.store Sample.tree_ref).
Proof.
  split; [by vm_compute|]. exists Sample.stripped.
  split; [by vm_compute|]. split; [by vm_compute|].
  intros Heq. apply (f_equal (fun m => m !! 1)) in Heq.
  vm_compute in Heq. discriminate.
Qed.

Lemma alloc_fresh c (h : gmap loc (list Event.t)) :
  h !! (alloc c h).1 = None /\ (alloc c h).2 = <[(alloc c h).1 := c]> h.
Proof.
  unfold alloc. simpl. split; [|done].
  apply not_elem_of_dom, is_fresh.
Qed.

(** C9, as the code has it: [strip_loan] works in place. On every chain
    it comes to an end, having popped the whole trailing run of LOAN events
    from the list it was given: that list keeps the events before the run,
    unchanged, and every other list of the store is as it was. It returns
    that same list when an event is left and raises [IndexError] when none
    is. So a tree keeps all its buckets when the list handed to
    [strip_loan] is the one [chain] returns, which is a new list. *)
Theorem strip_loan_in_place :
  (forall l (h : gmap loc (list Event.t)) c,
     h !! l = Some c ->
     exists c' loans r h',
       strip_loan l h = Some (r, h') /\
       c = c' ++ loans /\
       Forall (fun d => Event.action d = "LOAN") loans /\
       (c' = [] \/ exists d, last c' = Some d /\ Event.action d ≠ "LOAN") /\
       h' = <[l := c']> h /\
       h' !! l = Some c' /\
       (forall l', l' ≠ l -> h' !! l' = h !! l') /\
       (c' ≠ [] -> r = Ok l) /\
       (c' = [] -> r = Raise IndexError)) /\
  (forall (tree : gmap Z loc) e (h : gmap loc (list Event.t)),
     (forall k b, tree !! k = Some b -> is_Some (h !! b)) ->
     exists r h',
       strip_loan_of_chain tree e h = Some (r, h') /\
       deref h' tree = deref h tree /\
       (forall b c, h !! b = Some c -> h' !! b = Some c)).
Proof.
  assert (Hplace : forall l (h : gmap loc (list Event.t)) c,
     h !! l = Some c ->
     exists c' loans r h',
       strip_loan l h = Some (r, h') /\
       c = c' ++ loans /\
       Forall (fun d => Event.action d = "LOAN") loans /\
       (c' = [] \/ exists d, last c' = Some d /\ Event.action d ≠ "LOAN") /\
       h' = <[l := c']> h /\
       h' !! l = Some c' /\
       (forall l', l' ≠ l -> h' !! l' = h !! l') /\
       (c' ≠ [] -> r = Ok l) /\
       (c' = [] -> r = Raise IndexError)).
  { intros l h c Hl.
    destruct (strip_loan_run l h c Hl) as (c0 & loans & -> & Hloans & Hc0 & Hspec).
    exists c0, loans. eexists _, _. split; [exact Hspec|].
    split; [done|].
    split; [eapply Forall_impl; [exact Hloans|]; intros ?; apply is_loan_true|].
    split.
    { destruct Hc0 as [->|(d & Hd & Hno)]; [by left|].
      right. exists d. by rewrite <- is_loan_false. }
    split; [done|]. split; [apply lookup_insert_eq|].
    split; [intros l' Hne; by apply lookup_insert_ne|].
    split; [by destruct c0|by intros ->]. }
  split; [exact Hplace|].
  intros tree e h Htree. unfold strip_loan_of_chain, chain_ref.
  destruct (alloc_fresh (chain (deref h tree) e) h) as [Hfresh Hstore].
  destruct (alloc _ h) as [l h1]. simpl in Hfresh, Hstore. subst h1.
  destruct (Hplace l _ _ (lookup_insert_eq h l (chain (deref h tree) e)))
    as (c' & loans & r & h' & Hrun & _ & _ & _ & _ & _ & Hframe & _).
  exists r, h'. split; [exact Hrun|].
  assert (Hkeep : forall b c, h !! b = Some c -> h' !! b = Some c).
  { intros b c Hb. assert (b ≠ l) by congruence.
    by rewrite Hframe, lookup_insert_ne. }
  split; [|done].
  apply map_eq. intros k. unfold deref. rewrite !lookup_omap.
  destruct (tree !! k) as [b|] eqn:Hk; simpl; [|done].
  destruct (Htree k b Hk) as [c Hc]. by rewrite Hc, (Hkeep b c Hc).
Qed.

Lemma strip_loan_in_place_witness :
  exists r h',
    strip_loan_of_chain Sample.tree_ref 1 Sample.store = Some (r, h') /\
    deref h' Sample.tree_ref = deref Sample.store Sample.tree_ref.
Proof.
  destruct (proj2 strip_loan_in_place Sample.tree_ref 1 Sample.store)
    as (r & h' & Hrun & Hderef & _).
  - unfold Sample.tree_ref. intros k b [<- <-]%lookup_singleton_Some.
    by eexists.
  - by exists r, h'.
Defined.

(** [strip_loan] raises [IndexError] exactly on the chains that hold LOAN
    events only, the empty chain among them; the list is empty by then. *)
Theorem strip_loan_only_loans l (h : gmap loc (list Event.t)) c :
  h !! l = Some c ->
  Forall (fun d => Event.action d = "LOAN") c <->
  strip_loan l h = Some (Raise IndexError, <[l := []]> h).
Proof.
  intros Hl.
  destruct (strip_loan_run l h c Hl) as (c0 & loans & -> & Hloans & Hc0 & ->).
  split.
  - intros Hall. destruct Hc0 as [->|(d & Hd & Hno)]; [done|].
    apply Forall_app in Hall as [Hall _].
    apply last_Some in Hd as [c1 ->].
    rewrite Forall_app, Forall_singleton in Hall.
    apply is_loan_false in Hno. by destruct Hall.
  - destruct c0 as [|d0 c0]; [|done]. intros _. simpl.
    eapply Forall_impl; [exact Hloans|]. intros ?; apply is_loan_true.
Qed.

Lemma strip_loan_only_loans_witness :
  strip_loan 1%positive Sample.lent
  = Some (Raise IndexError, <[1%positive := []]> Sample.lent).
Proof.
  apply (strip_loan_only_loans 1%positive Sample.lent
           [Sample.ev "LOAN" 0; Sample.ev "LOAN" 1] eq_refl).
  by repeat constructor.
Defined.

(** ** Decoding the payload *)

Lemma string_pair_ind (P : string -> Prop) :
  P EmptyString -> (forall a, P (String a EmptyString)) ->
  (forall a b s, P s -> P (String a (String b s))) ->
  forall s, P s.
Proof.
  intros Hnil Hone Hstep s.
  cut (P s /\ forall a, P (String a s)); [tauto|].
  induction s as [|c s [IH1 IH2]]; [by split|].
  split; [apply IH2|]. intros a. by apply Hstep.
Qed.

Lemma a2b_hex_pair a b s :
  a2b_hex (String a (String b s)) =
    hi ← hex_digit a; lo ← hex_digit b; rest ← a2b_hex s;
    Ok (byte_of_ascii (ascii_of_N (16 * hi + lo)) :: rest).
Proof. done. Qed.

Lemma a2b_hex_ok_iff s :
  (exists bs, a2b_hex s = Ok bs) <->
  Nat.even (String.length s) = true /\ all_hex s = true.
Proof.
  induction s as [|a|a b s IH] using string_pair_ind.
  - split; [done|]. by exists [].
  - split; [by intros [bs Hbs]|by intros [Heven _]].
  - rewrite a2b_hex_pair. unfold all_hex, is_hex_digit. fold all_hex.
    change (Nat.even (String.length (String a (String b s))))
      with (Nat.even (String.length s)).
    destruct (hex_digit a) as [hi|]; simpl; [|split; [by intros [? ?]|by intros [_ ?]]].
    destruct (hex_digit b) as [lo|]; simpl; [|split; [by intros [? ?]|by intros [_ ?]]].
    rewrite <- IH. destruct (a2b_hex s) as [rest|]; simpl.
    + split; eauto.
    + split; [by intros [? ?]|by intros [? ?]].
Qed.

Lemma a2b_hex_length s bs :
  a2b_hex s = Ok bs -> String.length s = (2 * length bs)%nat.
Proof.
  revert bs. induction s as [|a|a b s IH] using string_pair_ind; intros bs.
  - by intros [= <-].
  - done.
  - rewrite a2b_hex_pair.
    destruct (hex_digit a) as [hi|]; simpl; [|done].
    destruct (hex_digit b) as [lo|]; simpl; [|done].
    destruct (a2b_hex s) as [rest|]; simpl; [|done].
    intros [= <-]. simpl. rewrite (IH rest eq_refl). lia.
Qed.

Lemma hex_digit_raises c e : hex_digit c = Raise e -> e = BinasciiError.
Proof. unfold hex_digit. repeat case_match; congruence. Qed.

Lemma a2b_hex_raises s e : a2b_hex s = Raise e -> e = BinasciiError.
Proof.
  induction s as [|a|a b s IH] using string_pair_ind.
  - done.
  - by intros [= <-].
  - rewrite a2b_hex_pair.
    destruct (hex_digit a) as [hi|e1] eqn:Ha; simpl;
      [|intros [= <-]; by apply hex_digit_raises in Ha].
    destruct (hex_digit b) as [lo|e2] eqn:Hb; simpl;
      [|intros [= <-]; by apply hex_digit_raises in Hb].
    destruct (a2b_hex s) as [rest|e3]; simpl; [done|].
    intros [= <-]. by apply IH.
Qed.

Lemma is_hex_digit_ascii c : is_hex_digit c = true -> is_ascii c = true.
Proof.
  unfold is_hex_digit, hex_digit, is_ascii.
  destruct (N.leb_spec 48 (N_of_ascii c)), (N.leb_spec (N_of_ascii c) 57),
    (N.leb_spec 97 (N_of_ascii c)), (N.leb_spec (N_of_ascii c) 102),
    (N.leb_spec 65 (N_of_ascii c)), (N.leb_spec (N_of_ascii c) 70);
    simpl; try done; intros _; apply N.ltb_lt; lia.
Qed.

Lemma all_hex_ascii s : all_hex s = true -> all_ascii s = true.
Proof.
  induction s as [|c s IH]; simpl; [done|].
  intros [Hc Hs]%andb_prop. by rewrite (is_hex_digit_ascii c Hc), IH.
Qed.

Lemma unhexlify_ok_iff s :
  (exists bs, unhexlify s = Ok bs) <->
  Nat.even (String.length s) = true /\ all_hex s = true.
Proof.
  unfold unhexlify. destruct (all_ascii s) eqn:Hascii.
  - apply a2b_hex_ok_iff.
  - split; [by intros [? ?]|]. intros [_ Hhex%all_hex_ascii]. congruence.
Qed.

Lemma unhexlify_length s bs :
  unhexlify s = Ok bs -> String.length s = (2 * length bs)%nat.
Proof.
  unfold unhexlify. destruct (all_ascii s); [apply a2b_hex_length|done].
Qed.

Lemma unhexlify_raises s e :
  unhexlify s = Raise e ->
  e = if all_ascii s then BinasciiError else ValueError.
Proof.
  unfold unhexlify. destruct (all_ascii s); [apply a2b_hex_raises|].
  by intros [= <-].
Qed.

Lemma string_drop_length k s :
  String.length (string_drop k s) = (String.length s - k)%nat.
Proof.
  revert s. induction k as [|k IH]; intros [|c s]; simpl; auto.
Qed.

Lemma string_drop_app p s :
  string_drop (String.length p) (p ++ s)%string = s.
Proof. induction p as [|c p IH]; simpl; auto. Qed.

(** [decode_op_return] returns exactly when what follows the first four
    characters is an even number of hexadecimal digits, and then gives one
    byte for every two of them; a string of four characters or fewer decodes
    to no bytes at all. When it raises, the exception is [ValueError] if a
    character after the first four is not ASCII, and [binascii.Error]
    otherwise. *)
Theorem decode_op_return_ok hex :
  ((exists payload, decode_op_return hex = Ok payload) <->
     Nat.even (String.length hex - 4) = true /\
     all_hex (string_drop 4 hex) = true) /\
  (forall payload, decode_op_return hex = Ok payload ->
     (String.length hex - 4 = 2 * length payload)%nat) /\
  ((String.length hex <= 4)%nat -> decode_op_return hex = Ok []) /\
  (forall e, decode_op_return hex = Raise e ->
     e = if all_ascii (string_drop 4 hex) then BinasciiError else ValueError).
Proof.
  unfold decode_op_return. split; [|split; [|split]].
  - by rewrite unhexlify_ok_iff, string_drop_length.
  - intros payload Hok. rewrite <- string_drop_length.
    by apply unhexlify_length.
  - intros Hshort.
    assert (Hlen : String.length (string_drop 4 hex) = 0%nat)
      by (rewrite string_drop_length; lia).
    by destruct (string_drop 4 hex).
  - apply unhexlify_raises.
Qed.

Lemma decode_op_return_ok_witness :
  ValueError
  = (if all_ascii (string_drop 4 Sample.latin_hex)
     then BinasciiError else ValueError) /\
  BinasciiError
  = (if all_ascii (string_drop 4 Sample.odd_hex)
     then BinasciiError else ValueError).
Proof.
  split.
  - apply (proj2 (proj2 (proj2 (decode_op_return_ok Sample.latin_hex)))).
    by vm_compute.
  - apply (proj2 (proj2 (proj2 (decode_op_return_ok Sample.odd_hex)))).
    by vm_compute.
Defined.

Lemma a2b_hex_byte b s :
  a2b_hex
    (String (hex_char (Byte.to_N b / 16))
       (String (hex_char (Byte.to_N b mod 16)) s))
  = rest ← a2b_hex s; Ok (b :: rest).
Proof. rewrite a2b_hex_pair. by destruct b. Qed.

Lemma a2b_hex_hexlify bs : a2b_hex (hexlify bs) = Ok bs.
Proof.
  induction bs as [|b bs IH]; [done|].
  simpl hexlify. by rewrite a2b_hex_byte, IH.
Qed.

Lemma all_ascii_hexlify bs : all_ascii (hexlify bs) = true.
Proof.
  induction bs as [|b bs IH]; [done|].
  simpl hexlify. cbn [all_ascii]. rewrite IH. by destruct b.
Qed.

Lemma unhexlify_hexlify bs : unhexlify (hexlify bs) = Ok bs.
Proof. unfold unhexlify. by rewrite all_ascii_hexlify, a2b_hex_hexlify. Qed.

(** Round trip: whatever the four characters in front are, the hexadecimal
    encoding of a payload decodes to that payload. *)
Theorem decode_op_return_hexlify prefix payload :
  String.length prefix = 4%nat ->
  decode_op_return (prefix ++ hexlify payload)%string = Ok payload.
Proof.
  intros Hlen. unfold decode_op_return.
  by rewrite <- Hlen, string_drop_app, unhexlify_hexlify.
Qed.

Lemma decode_op_return_hexlify_witness :
  decode_op_return Sample.register_hex = Ok (list_byte_of_string "REGISTER/1").
Proof.
  exact (decode_op_return_hexlify "6a0a" (list_byte_of_string "REGISTER/1")
           eq_refl).
Defined.

(** ** More on the output scanner *)

Lemma filter_filter_same {A} (f : A -> bool) l :
  List.filter f (List.filter f l) = List.filter f l.
Proof.
  induction l as [|x l IH]; simpl; [done|].
  destruct (f x) eqn:Hx; simpl; [|done]. by rewrite Hx, IH.
Qed.

Lemma filter_none {A} (f : A -> bool) l :
  Forall (fun x => f x = false) l -> List.filter f l = [].
Proof. induction 1 as [|x l Hx _ IH]; simpl; [done|]. by rewrite Hx. Qed.

Lemma candidates_snoc vouts v :
  startswith "6a" (Vout.hex v) = true ->
  candidates (vouts ++ [v]) = v :: candidates vouts.
Proof.
  intros Hv. unfold candidates. rewrite rev_app_distr. simpl. by rewrite Hv.
Qed.

Section ScannerMore.
Context {VI : VerbInterpreter}.

Lemma scan_sound l verb :
  scan l = Ok verb ->
  exists vout v,
    vout ∈ l /\ decode_op_return (Vout.hex vout) = Ok verb /\
    from_verb verb = Ok v /\ supported (Spoolverb.action v) = true.
Proof.
  induction l as [|vout l IH]; [done|]. simpl.
  destruct (decode_op_return (Vout.hex vout)) as [payload|] eqn:Hp; simpl; [|done].
  destruct (from_verb payload) as [v|] eqn:Hv; simpl; [|done].
  destruct (supported (Spoolverb.action v)) eqn:Hs.
  - intros [= <-]. exists vout, v. repeat split; [apply list_elem_of_here|done..].
  - intros (vout' & v' & Hin & Hrest)%IH.
    exists vout', v'. split; [by apply list_elem_of_further|done].
Qed.

(** What [check_script] returns is the payload of one of the outputs that
    start with [6a], and the verb interpreter reads it as a supported
    action: decoding it again, as [history] does, cannot fail. *)
Theorem check_script_sound vouts verb :
  check_script vouts = Ok verb ->
  exists vout v,
    vout ∈ vouts /\ startswith "6a" (Vout.hex vout) = true /\
    decode_op_return (Vout.hex vout) = Ok verb /\
    from_verb verb = Ok v /\ Spoolverb.action v ∈ supported_actions.
Proof.
  unfold check_script.
  intros (vout & v & [Hin Hdata]%candidates_spec & Hp & Hv & Hs)%scan_sound.
  exists vout, v. repeat split; [done..|].
  unfold supported in Hs. by apply bool_decide_eq_true in Hs.
Qed.

(** The data output comes last by convention, and then it alone counts:
    when the last output starts with [6a] and decodes to a supported
    action, [check_script] returns its payload without decoding any of the
    outputs before it, whatever they hold. *)
Theorem check_script_last vouts v verb action :
  startswith "6a" (Vout.hex v) = true ->
  payload_action v = Ok (verb, action) -> supported action = true ->
  check_script (vouts ++ [v]) = Ok verb.
Proof.
  intros Hdata Hv Hs. unfold check_script.
  by rewrite candidates_snoc, scan_cons, Hv, Hs.
Qed.

(** Outputs that do not start with [6a] play no part: the result is that
    of the data outputs alone, and a transaction without a data output, or
    without any output, is refused with the scanner's own exception. *)
Theorem check_script_data_only vouts :
  check_script vouts
    = check_script (List.filter (fun v => startswith "6a" (Vout.hex v)) vouts) /\
  (Forall (fun v => startswith "6a" (Vout.hex v) = false) vouts ->
     check_script vouts = Raise InvalidAscribeTransaction).
Proof.
  unfold check_script. rewrite !candidates_rev. split.
  - by rewrite filter_filter_same.
  - intros Hnone.
    by rewrite (filter_none (fun v => startswith "6a" (Vout.hex v)) vouts Hnone).
Qed.
End ScannerMore.

Lemma check_script_sound_witness :
  exists vout v,
    vout ∈ Tx.vouts Sample.tx_register /\
    startswith "6a" (Vout.hex vout) = true /\
    decode_op_return (Vout.hex vout) = Ok (list_byte_of_string "REGISTER/1") /\
    from_verb (VerbInterpreter := Sample.codec)
      (list_byte_of_string "REGISTER/1") = Ok v /\
    Spoolverb.action v ∈ supported_actions (VerbInterpreter := Sample.codec).
Proof.
  apply (check_script_sound (VI := Sample.codec)). by vm_compute.
Defined.

Lemma check_script_last_witness :
  check_script (VI := Sample.codec)
    ([Sample.data 0 Sample.odd_hex; Sample.data 1 Sample.unknown_hex]
     ++ [Sample.data 2 Sample.loan_hex])
  = Ok (list_byte_of_string "LOAN/2").
Proof.
  apply (check_script_last (VI := Sample.codec) _ _ _ "LOAN"); by vm_compute.
Defined.

Lemma check_script_data_only_witness :
  check_script (VI := Sample.codec) [Sample.pay 0 "piece"; Sample.pay 1 "bob"]
  = Raise InvalidAscribeTransaction.
Proof.
  apply (proj2 (check_script_data_only (VI := Sample.codec) _)).
  repeat constructor.
Defined.

(** ** More on the address resolver *)

Lemma get_addresses_by_parts tx1 tx2 :
  senders tx1 = senders tx2 ->
  Vout.address <$> head (ordered_vouts tx1)
    = Vout.address <$> head (ordered_vouts tx2) ->
  Vout.address <$> last (ordered_vouts tx1)
    = Vout.address <$> last (ordered_vouts tx2) ->
  _get_addresses tx1 = _get_addresses tx2.
Proof.
  intros Hs Hhead Hlast. unfold _get_addresses, index_first, index_last.
  rewrite Hs. case_decide; [done|].
  destruct (head (ordered_vouts tx1)) as [p1|],
           (head (ordered_vouts tx2)) as [p2|]; simplify_eq/=; [|done].
  destruct (last (ordered_vouts tx1)) as [t1|],
           (last (ordered_vouts tx2)) as [t2|]; simplify_eq/=; [|done].
  by rewrite Hhead, Hlast.
Qed.

(** The resolver returns exactly for the transactions that have one sender
    address and at least two outputs. *)
Theorem get_addresses_ok_iff tx :
  (exists r, _get_addresses tx = Ok r) <->
  size (senders tx) = 1%nat /\ (2 <= length (Tx.vouts tx))%nat.
Proof.
  split.
  - intros [r Hr].
    destruct (decide (size (senders tx) = 1%nat)) as [Hsz|Hsz]; cycle 1.
    { unfold _get_addresses in Hr. by rewrite decide_True in Hr. }
    split; [done|]. destruct (senders_single _ Hsz) as [a Ha].
    rewrite (get_addresses_unfold _ _ Ha) in Hr.
    destruct (le_lt_dec 2 (length (Tx.vouts tx))) as [|Hshort]; [done|].
    unfold ordered_vouts in Hr.
    rewrite removelast_short in Hr by (by rewrite sorted_length). done.
  - intros [Hsz Hlen]. destruct (senders_single _ Hsz) as [a Ha].
    rewrite (get_addresses_unfold _ _ Ha).
    assert (Hrem : length (ordered_vouts tx) ≠ 0%nat).
    { unfold ordered_vouts. rewrite removelast_length, sorted_length. lia. }
    destruct (ordered_vouts tx) as [|p l] eqn:Hvouts; [done|]. simpl head.
    destruct (last (p :: l)) as [t|] eqn:Ht; [eauto|].
    by apply last_None in Ht.
Qed.

Lemma get_addresses_ok_iff_witness :
  exists r, _get_addresses Sample.tx_transfer = Ok r.
Proof.
  apply (get_addresses_ok_iff Sample.tx_transfer).
  split; [by vm_compute | simpl; lia].
Defined.

Lemma NoDup_fmap_inj {A B} (f : A -> B) (l : list A) x y :
  NoDup (f <$> l) -> x ∈ l -> y ∈ l -> f x = f y -> x = y.
Proof.
  induction l as [|z l IH]; simpl; [by intros _ ?%elem_of_nil|].
  intros [Hz Hl]%NoDup_cons [->|Hx]%elem_of_cons [->|Hy]%elem_of_cons Hf;
    [done| | |by apply IH].
  - destruct Hz. rewrite Hf. apply list_elem_of_fmap. eauto.
  - destruct Hz. rewrite <- Hf. apply list_elem_of_fmap. eauto.
Qed.

Lemma sorted_Permutation_eq {A} (key : A -> Z) l1 l2 :
  NoDup (key <$> l1) -> l1 ≡ₚ l2 -> sorted key l1 = sorted key l2.
Proof.
  intros Hnodup Hperm.
  apply (StronglySorted_unique_strong (key_le key));
    [|apply sorted_StronglySorted..|by rewrite !sorted_Permutation].
  intros x1 x2 H1 H2 Hle1 Hle2. unfold key_le in *.
  rewrite sorted_Permutation in H1. rewrite sorted_Permutation, <- Hperm in H2.
  apply (NoDup_fmap_inj key l1); [done..|lia].
Qed.

(** The order in which the source lists inputs and outputs does not
    matter, as long as no two outputs have the same index [n]. *)
Theorem get_addresses_order tx1 tx2 :
  Tx.vins tx1 ≡ₚ Tx.vins tx2 -> Tx.vouts tx1 ≡ₚ Tx.vouts tx2 ->
  NoDup (Vout.n <$> Tx.vouts tx1) ->
  _get_addresses tx1 = _get_addresses tx2.
Proof.
  intros Hvins Hvouts Hnodup.
  assert (Hs : senders tx1 = senders tx2).
  { unfold senders. apply list_to_set_perm_L. by rewrite Hvins. }
  assert (Ho : ordered_vouts tx1 = ordered_vouts tx2).
  { unfold ordered_vouts. f_equal. by apply sorted_Permutation_eq. }
  apply get_addresses_by_parts; by rewrite ?Ho.
Qed.

Lemma get_addresses_order_witness :
  _get_addresses Sample.tx_register
  = _get_addresses
      (Tx.mk "t1" [Vin.mk "alice"]
         [Sample.pay 0 "piece"; Sample.pay 1 "bob";
          Sample.data 2 Sample.register_hex] 100).
Proof.
  apply get_addresses_order; simpl.
  - done.
  - apply Permutation_rev.
  - apply (bool_decide_unpack (NoDup [2; 1; 0])). by vm_compute.
Defined.

Lemma insert_by_same_place v1 v2 l1 l2 :
  same_place v1 v2 -> Forall2 same_place l1 l2 ->
  Forall2 same_place (insert_by Vout.n v1 l1) (insert_by Vout.n v2 l2).
Proof.
  intros Hv. induction 1 as [|y1 y2 l1 l2 Hy Hl IH]; simpl.
  - constructor; [done|constructor].
  - assert (Hn : Vout.n v1 = Vout.n v2) by apply Hv.
    assert (Hn' : Vout.n y1 = Vout.n y2) by apply Hy.
    rewrite Hn, Hn'.
    destruct (Vout.n v2 <=? Vout.n y2).
    + constructor; [done|]. by constructor.
    + by constructor.
Qed.

Lemma sorted_same_place l1 l2 :
  Forall2 same_place l1 l2 ->
  Forall2 same_place (sorted Vout.n l1) (sorted Vout.n l2).
Proof.
  induction 1; simpl; [constructor|]. by apply insert_by_same_place.
Qed.

Lemma removelast_Forall2 {A B} (R : A -> B -> Prop) l1 l2 :
  Forall2 R l1 l2 -> Forall2 R (removelast l1) (removelast l2).
Proof.
  induction 1 as [|x y l1 l2 Hxy Hl IH]; simpl; [constructor|].
  destruct Hl; [constructor|]. by constructor.
Qed.

Lemma last_Forall2 {A B} (R : A -> B -> Prop) l1 l2 :
  Forall2 R l1 l2 -> option_Forall2 R (last l1) (last l2).
Proof.
  induction 1 as [|x y l1 l2 Hxy Hl IH]; [constructor|].
  destruct Hl; [by constructor|]. by rewrite !last_cons_cons.
Qed.

(** The resolver never reads a script: it takes the output with the highest
    index for the data output and drops it, whether or not that is the one
    that starts with [6a]. Transactions whose inputs are the same and whose
    outputs agree on index and address give the same result. *)
Theorem get_addresses_ignores_script tx1 tx2 :
  Tx.vins tx1 = Tx.vins tx2 ->
  Forall2 same_place (Tx.vouts tx1) (Tx.vouts tx2) ->
  _get_addresses tx1 = _get_addresses tx2.
Proof.
  intros Hvins Hvouts.
  assert (Hrem : Forall2 same_place (ordered_vouts tx1) (ordered_vouts tx2))
    by by apply removelast_Forall2, sorted_same_place.
  apply get_addresses_by_parts.
  - unfold senders. by rewrite Hvins.
  - destruct Hrem as [|?? ?? [_ Ha] _]; simpl; [done|by rewrite Ha].
  - destruct (last_Forall2 _ _ _ Hrem) as [?? [_ Ha]|]; simpl; [by rewrite Ha|done].
Qed.

Lemma get_addresses_ignores_script_witness :
  _get_addresses
    (Tx.mk "t3" [Vin.mk "bob"]
       [Vout.mk 0 "" Sample.transfer_hex; Vout.mk 1 "carol" "76a9";
        Vout.mk 2 "piece" "76a9"] 200)
  = _get_addresses
      (Tx.mk "t3" [Vin.mk "bob"]
         [Vout.mk 0 "" "76a9"; Vout.mk 1 "carol" "76a9";
          Vout.mk 2 "piece" Sample.transfer_hex] 200).
Proof.
  apply get_addresses_ignores_script; [done|].
  repeat constructor.
Defined.

(** ** More on the tree builder *)

Lemma filter_fmap_edition k e (l : list Event.t) :
  filter (fun d => Event.edition_number d = e)
    (Event.update_number_editions k <$> l)
  = Event.update_number_editions k
      <$> filter (fun d => Event.edition_number d = e) l.
Proof.
  induction l as [|d l IH]; [done|].
  rewrite fmap_cons, !filter_cons. simpl.
  case_decide; by rewrite IH.
Qed.

Lemma tree_append_bucket e k d (tree : gmap Z (list Event.t)) :
  Event.edition_number d = k ->
  default [] (tree_append k d tree !! e)
  = default [] (tree !! e) ++ filter (fun d => Event.edition_number d = e) [d].
Proof.
  intros Hd. rewrite filter_cons, filter_nil.
  destruct (decide (e = k)) as [->|Hne].
  - rewrite tree_append_lookup. by rewrite decide_True.
  - rewrite tree_append_lookup_ne by done.
    rewrite decide_False by congruence. by rewrite app_nil_r.
Qed.

Lemma tree_append_None e k d (tree : gmap Z (list Event.t)) :
  tree_append k d tree !! e = None <-> tree !! e = None /\ k ≠ e.
Proof.
  destruct (decide (e = k)) as [->|Hne].
  - rewrite tree_append_lookup. split; [done|]. by intros [_ ?].
  - rewrite tree_append_lookup_ne by done. split; [|by intros [? _]].
    intros ?. split; [done|congruence].
Qed.

Section HistoryMore.
Context {VI : VerbInterpreter} {TS : Transactions}.

Lemma record_of_update tx k d :
  record_of tx d -> record_of tx (Event.update_number_editions k d).
Proof. intros (verb & H). by exists verb. Qed.

Lemma history_step_record tx tree k tree' k' :
  history_step tx (tree, k) = Ok (tree', k') ->
  exists d,
    record_of tx d /\
    tree' = tree_append (Event.edition_number d) d tree.
Proof.
  intros (verb_str & verb & a & t & p & Hs & Hv & Ha & [= -> ->])%history_step_inv.
  exists (Event.mk (Tx.txid (get_tx tx)) verb_str a t p (Tx.time (get_tx tx))
            (Spoolverb.action verb) (announce verb k) (bucket_key verb)).
  split; [|done]. exists verb. simpl.
  repeat split; [done..|].
  unfold bucket_key. by repeat case_decide.
Qed.

Lemma history_loop_events txs : forall tree k tree' k',
  history_loop txs (tree, k) = Ok (tree', k') ->
  exists events,
    Forall2 record_of txs events /\
    (forall e, default [] (tree' !! e)
       = default [] (tree !! e)
         ++ filter (fun d => Event.edition_number d = e) events) /\
    (forall e, tree' !! e = None <->
       tree !! e = None /\
       Forall (fun d => Event.edition_number d ≠ e) events).
Proof.
  induction txs as [|tx txs IH]; intros tree k tree' k' Hloop.
  - simpl in Hloop. injection Hloop as <- <-. exists [].
    split; [constructor|]. split; intros e.
    + by rewrite filter_nil, app_nil_r.
    + split; [by intros ?|by intros [? _]].
  - change (history_step tx (tree, k) ≫= history_loop txs = Ok (tree', k'))
      in Hloop.
    destruct (history_step tx (tree, k)) as [[tree1 k1]|] eqn:Hstep;
      simpl in Hloop; [|done].
    destruct (history_step_record _ _ _ _ _ Hstep) as (d & Hd & ->).
    destruct (IH _ _ _ _ Hloop) as (events & Hall & Hbuckets & Hnone).
    exists (d :: events). split; [by constructor|]. split; intros e.
    + rewrite Hbuckets, (tree_append_bucket e _ d tree eq_refl).
      rewrite <- app_assoc. f_equal.
      by rewrite (filter_app _ [d] events).
    + rewrite Hnone, tree_append_None, Forall_cons. tauto.
Qed.

(** The tree that [history] returns files the records of the transactions,
    one for each, by edition and in the order of the feed: bucket [e] is the
    list of the records whose [edition_number] is [e], and the tree has no
    key for an edition without a record. *)
Theorem history_events hash tree :
  history hash = Ok tree ->
  exists events,
    Forall2 record_of (get_transactions hash) events /\
    (forall e, default [] (tree !! e)
       = filter (fun d => Event.edition_number d = e) events) /\
    (forall e, tree !! e = None <->
       Forall (fun d => Event.edition_number d ≠ e) events).
Proof.
  unfold history.
  destruct (history_loop _ _) as [[tree0 k]|] eqn:Hloop; simpl; [|done].
  intros [= <-].
  destruct (history_loop_events _ _ _ _ _ Hloop)
    as (events & Hall & Hbuckets & Hnone).
  exists (Event.update_number_editions k <$> events). split; [|split].
  - apply Forall2_fmap_r. eapply Forall2_impl; [exact Hall|].
    intros tx d. apply record_of_update.
  - intros e. unfold backfill. rewrite lookup_fmap, filter_fmap_edition.
    specialize (Hbuckets e). rewrite lookup_empty in Hbuckets.
    simpl in Hbuckets. rewrite <- Hbuckets. by destruct (tree0 !! e).
  - intros e. unfold backfill. rewrite lookup_fmap, fmap_None, Hnone.
    rewrite lookup_empty, Forall_fmap. simpl. tauto.
Qed.

Lemma history_step_ok_iff tx tree k :
  (exists st', history_step tx (tree, k) = Ok st') <-> processes tx.
Proof.
  unfold processes, tx_verb, history_step.
  destruct (check_script _) as [verb_str|]; simpl;
    [|split; [by intros [? ?]|by intros [[? ?] _]]].
  destruct (from_verb verb_str) as [verb|]; simpl;
    [|split; [by intros [? ?]|by intros [[? ?] _]]].
  destruct (_get_addresses _) as [[[a t] p]|]; simpl.
  - split; eauto.
  - split; [by intros [? ?]|by intros [_ [? ?]]].
Qed.

Lemma history_step_fails tx tree k e :
  history_step tx (tree, k) = Raise e <-> fails_with tx e.
Proof.
  unfold fails_with, tx_verb, history_step.
  destruct (check_script _) as [verb_str|]; simpl;
    [|split; [intros [= ->]; by left|by intros [[= ->]|[[? ?] _]]]].
  destruct (from_verb verb_str) as [verb|]; simpl;
    [|split; [intros [= ->]; by left|by intros [[= ->]|[[? ?] _]]]].
  destruct (_get_addresses _) as [[[a t] p]|]; simpl.
  - split; [done|by intros [?|[_ ?]]].
  - split; [intros [= ->]; right; eauto|by intros [?|[_ [= ->]]]].
Qed.

Lemma history_loop_ok_iff txs : forall tree k,
  (exists st', history_loop txs (tree, k) = Ok st') <-> Forall processes txs.
Proof.
  induction txs as [|tx txs IH]; intros tree k.
  - split; [constructor|]. simpl. eauto.
  - rewrite Forall_cons, <- (history_step_ok_iff tx tree k).
    change (history_loop (tx :: txs) (tree, k))
      with (history_step tx (tree, k) ≫= history_loop txs).
    destruct (history_step tx (tree, k)) as [[tree1 k1]|]; simpl.
    + rewrite (IH tree1 k1). split; [eauto|tauto].
    + split; [by intros [? ?]|by intros [[? ?] _]].
Qed.

(** [history] returns a tree exactly when every transaction of the feed
    can be processed: its data output decodes to a supported verb and the
    address resolver accepts it. For a hash without transactions it
    returns. *)
Theorem history_ok_iff hash :
  (exists tree, history hash = Ok tree) <->
  Forall processes (get_transactions hash).
Proof.
  rewrite <- (history_loop_ok_iff _ ∅ 0). unfold history.
  destruct (history_loop _ _) as [[tree k]|]; simpl.
  - split; eauto.
  - split; by intros [? ?].
Qed.

Lemma history_loop_fails pre tx post e : forall tree k,
  Forall processes pre -> fails_with tx e ->
  history_loop (pre ++ tx :: post) (tree, k) = Raise e.
Proof.
  induction pre as [|tx0 pre IH]; intros tree k Hpre Hfail.
  - change (history_step tx (tree, k) ≫= history_loop post = Raise e).
    apply (history_step_fails tx tree k) in Hfail. by rewrite Hfail.
  - apply Forall_cons in Hpre as [Htx0 Hpre].
    change (history_step tx0 (tree, k) ≫= history_loop (pre ++ tx :: post)
            = Raise e).
    apply (history_step_ok_iff tx0 tree k) in Htx0 as [[tree1 k1] ->]. simpl.
    by apply IH.
Qed.

(** All or nothing: the first transaction of the feed that cannot be
    processed ends [history] with its exception, that of the scanner or of
    the verb interpreter before that of the address resolver, and no tree
    is returned, whatever comes after it in the feed. *)
Theorem history_first_failure hash pre tx post e :
  get_transactions hash = pre ++ tx :: post ->
  Forall processes pre -> fails_with tx e ->
  history hash = Raise e.
Proof.
  intros Hfeed Hpre Hfail. unfold history.
  by rewrite Hfeed, (history_loop_fails pre tx post e ∅ 0 Hpre Hfail).
Qed.
End HistoryMore.

Lemma history_events_witness :
  exists tree events,
    history (VI := Sample.codec) (TS := Sample.source) "plain" = Ok tree /\
    Forall2 (record_of (VI := Sample.codec) (TS := Sample.source))
      ["t3"; "t1"] events /\
    default [] (tree !! 1) = filter (fun d => Event.edition_number d = 1) events.
Proof.
  eexists.
  assert (Hrun : history (VI := Sample.codec) (TS := Sample.source) "plain"
                 = Ok ?[tree]) by (vm_compute; reflexivity).
  destruct (history_events (VI := Sample.codec) (TS := Sample.source)
              "plain" _ Hrun) as (events & Hall & Hbuckets & _).
  exists events. split; [exact Hrun|]. split; [exact Hall|apply Hbuckets].
Defined.

Lemma history_ok_iff_witness :
  exists tree,
    history (VI := Sample.codec) (TS := Sample.source) "announced" = Ok tree.
Proof.
  apply (proj2 (history_ok_iff (VI := Sample.codec) (TS := Sample.source)
                  "announced")).
  change (Forall (processes (VI := Sample.codec) (TS := Sample.source))
            ["t1"; "t2"; "t3"; "t4"]).
  repeat (apply Forall_cons; split;
          [split; eexists; vm_compute; reflexivity|]).
  by apply Forall_nil.
Defined.

Lemma history_first_failure_witness :
  history (VI := Sample.codec) (TS := Sample.source_two_senders) "piece"
  = Raise InvalidTransactionError.
Proof.
  apply (history_first_failure (VI := Sample.codec)
           (TS := Sample.source_two_senders) "piece" ["t1"] "t7" ["t6"]).
  - reflexivity.
  - apply Forall_cons; split; [|by apply Forall_nil].
    split; eexists; vm_compute; reflexivity.
  - right. split; [eexists; vm_compute; reflexivity|by vm_compute].
Defined.

(** ** More on the chain extractor *)

Lemma sorted_id {A} (key : A -> Z) l :
  StronglySorted (key_le key) l -> sorted key l = l.
Proof.
  induction 1 as [|x l Hl IH Hx]; simpl; [done|]. rewrite IH.
  destruct Hx as [|y l Hxy _]; simpl; [done|].
  unfold key_le in Hxy. by rewrite (proj2 (Z.leb_le _ _) Hxy).
Qed.

Lemma stable_sorted_eq {A} (key : A -> Z) l1 : forall l2,
  StronglySorted (key_le key) l1 -> StronglySorted (key_le key) l2 ->
  (forall k, filter (fun y => key y = k) l1 = filter (fun y => key y = k) l2) ->
  l1 = l2.
Proof.
  induction l1 as [|x l1 IH]; intros [|y l2] H1 H2 Hsame.
  - done.
  - specialize (Hsame (key y)). rewrite filter_nil, filter_cons in Hsame.
    by rewrite decide_True in Hsame.
  - specialize (Hsame (key x)). rewrite filter_nil, filter_cons in Hsame.
    by rewrite decide_True in Hsame.
  - apply StronglySorted_inv in H1 as [H1 Hx], H2 as [H2 Hy].
    assert (x = y) as <-.
    { pose proof (Hsame (key x)) as Hkx. rewrite !filter_cons in Hkx.
      rewrite decide_True in Hkx by done.
      destruct (decide (key y = key x)) as [Heq|Hne]; [congruence|].
      pose proof (Hsame (key y)) as Hky. rewrite !filter_cons in Hky.
      rewrite decide_False, decide_True in Hky by done.
      assert (x ∈ l2) as Hx2.
      { eapply (proj1 (list_elem_of_filter (fun z => key z = key x) l2 x)).
        rewrite <- Hkx. apply list_elem_of_here. }
      assert (y ∈ l1) as Hy1.
      { eapply (proj1 (list_elem_of_filter (fun z => key z = key y) l1 y)).
        rewrite Hky. apply list_elem_of_here. }
      rewrite Forall_forall in Hx, Hy.
      specialize (Hx y Hy1). specialize (Hy x Hx2). unfold key_le in *. lia. }
    f_equal. apply IH; [done..|]. intros k. specialize (Hsame k).
    rewrite !filter_cons in Hsame. case_decide; congruence.
Qed.

(** A bucket that is in time order already comes back as it is; so a
    chain put back in the tree under its edition is what [chain] returns
    for it. *)
Theorem chain_sorted_bucket (tree : gmap Z (list Event.t)) e bucket :
  tree !! e = Some bucket ->
  StronglySorted (key_le Event.timestamp_utc) bucket ->
  chain tree e = bucket /\ chain (<[e := chain tree e]> tree) e = chain tree e.
Proof.
  intros Hbucket Hsorted. unfold chain.
  rewrite lookup_insert_eq, Hbucket. simpl.
  by rewrite !sorted_id.
Qed.

Lemma chain_sorted_bucket_witness :
  chain (deref Sample.stripped Sample.tree_ref) 1
  = [Sample.ev "REGISTER" 0; Sample.ev "TRANSFER" 1].
Proof.
  refine (proj1 (chain_sorted_bucket _ 1 _ _ _)); [by vm_compute|].
  repeat constructor; unfold key_le; simpl; lia.
Defined.

(** The order of a chain is fully determined: any arrangement of the bucket
    that is in time order and keeps the events of each timestamp in the
    order of the bucket is the one [chain] returns. *)
Theorem chain_unique (tree : gmap Z (list Event.t)) e l :
  StronglySorted (key_le Event.timestamp_utc) l ->
  (forall t, filter (fun d => Event.timestamp_utc d = t) l
             = filter (fun d => Event.timestamp_utc d = t)
                 (default [] (tree !! e))) ->
  l = chain tree e.
Proof.
  intros Hsorted Hstable. unfold chain.
  apply (stable_sorted_eq Event.timestamp_utc);
    [done|apply sorted_StronglySorted|].
  intros t. by rewrite sorted_stable.
Qed.

Lemma chain_unique_witness :
  [Sample.ev "LOAN" 0; Sample.ev "REGISTER" 0; Sample.ev "TRANSFER" 1;
   Sample.ev "LOAN" 3]
  = chain (deref Sample.shuffled Sample.tree_ref) 1.
Proof.
  apply chain_unique.
  - repeat constructor; unfold key_le; simpl; lia.
  - intros t.
    change (default [] (deref Sample.shuffled Sample.tree_ref !! 1))
      with [Sample.ev "LOAN" 3; Sample.ev "TRANSFER" 1; Sample.ev "LOAN" 0;
            Sample.ev "REGISTER" 0].
    rewrite !filter_cons, !filter_nil. simpl.
    repeat case_decide; try done; lia.
Defined.

(** ** More on [strip_loan] *)

(** On a chain with an event that is no LOAN, [strip_loan] returns, and
    what it leaves in the list is the chain up to its last event that is no
    LOAN, that event included. *)
Theorem strip_loan_keeps_owner l (h : gmap loc (list Event.t)) pre d loans :
  h !! l = Some (pre ++ d :: loans) ->
  Event.action d ≠ "LOAN" ->
  Forall (fun d' => Event.action d' = "LOAN") loans ->
  strip_loan l h = Some (Ok l, <[l := pre ++ [d]]> h).
Proof.
  intros Hl Hd Hloans. unfold strip_loan. rewrite Hl.
  rewrite (strip_loan_loop_run loans _ l h (pre ++ [d])).
  - by destruct pre.
  - by rewrite <- app_assoc.
  - eapply Forall_impl; [exact Hloans|]. intros ?; apply is_loan_true.
  - simpl. rewrite length_app. simpl. lia.
  - right. exists d. rewrite last_snoc. by rewrite is_loan_false.
Qed.

Lemma strip_loan_keeps_owner_witness :
  strip_loan 1%positive Sample.store
  = Some (Ok 1%positive,
          <[1%positive := [Sample.ev "REGISTER" 0] ++ [Sample.ev "TRANSFER" 1]]>
            Sample.store).
Proof.
  apply (strip_loan_keeps_owner 1%positive Sample.store
           [Sample.ev "REGISTER" 0] (Sample.ev "TRANSFER" 1)
           [Sample.ev "LOAN" 2; Sample.ev "LOAN" 3]).
  - reflexivity.
  - discriminate.
  - by repeat constructor.
Defined.

Lemma strip_loan_nil l (h : gmap loc (list Event.t)) :
  h !! l = Some [] -> strip_loan l h = Some (Raise IndexError, h).
Proof. intros Hl. unfold strip_loan. rewrite Hl. simpl. by rewrite Hl. Qed.

(** For an edition that the tree does not have, [chain] gives an empty
    list, and [strip_loan] on it raises [IndexError]: asking for the owner
    of an unknown edition does not return. *)
Theorem strip_loan_of_chain_absent (tree : gmap Z loc) e
    (h : gmap loc (list Event.t)) :
  tree !! e = None ->
  strip_loan_of_chain tree e h
  = Some (Raise IndexError, <[fresh (dom h) := []]> h).
Proof.
  intros He. unfold strip_loan_of_chain, chain_ref, alloc, chain, deref.
  rewrite lookup_omap, He. simpl.
  apply strip_loan_nil, lookup_insert_eq.
Qed.

Lemma strip_loan_of_chain_absent_witness :
  strip_loan_of_chain Sample.tree_ref 2 Sample.store
  = Some (Raise IndexError, <[fresh (dom Sample.store) := []]> Sample.store).
Proof. apply strip_loan_of_chain_absent. by vm_compute. Defined.

(** The event that [strip_loan] leaves last in the chain of an edition is
    an event of that edition's bucket that is no LOAN, and no other event
    of the bucket that is no LOAN has a later timestamp: it is the latest
    custody event that is not a loan. *)
Theorem strip_loan_of_chain_latest (tree : gmap Z loc) e
    (h h' : gmap loc (list Event.t)) l :
  strip_loan_of_chain tree e h = Some (Ok l, h') ->
  exists c d,
    h' !! l = Some c /\ last c = Some d /\
    d ∈ default [] (deref h tree !! e) /\ Event.action d ≠ "LOAN" /\
    forall d', d' ∈ default [] (deref h tree !! e) ->
      Event.action d' ≠ "LOAN" ->
      Event.timestamp_utc d' <= Event.timestamp_utc d.
Proof.
  unfold strip_loan_of_chain, chain_ref, alloc.
  set (l0 := fresh (dom h)). set (bucket := default [] (deref h tree !! e)).
  intros Hrun.
  assert (Hsorted : StronglySorted (key_le Event.timestamp_utc)
                      (chain (deref h tree) e))
    by apply sorted_StronglySorted.
  assert (Hperm : chain (deref h tree) e ≡ₚ bucket) by apply sorted_Permutation.
  destruct (strip_loan_run l0 (<[l0 := chain (deref h tree) e]> h) _
              (lookup_insert_eq _ _ _))
    as (c0 & loans & Hsplit & Hloans & Hc0 & Hspec).
  rewrite Hspec in Hrun. rewrite Hsplit in Hsorted, Hperm.
  destruct Hc0 as [->|(d & Hd & Hno)]; [done|].
  destruct c0 as [|d0 c0]; [done|]. injection Hrun as <- <-.
  exists (d0 :: c0), d. split; [apply lookup_insert_eq|]. split; [done|].
  apply last_Some in Hd as [c1 Hc1]. rewrite Hc1 in Hsorted, Hperm.
  split; [|split].
  - rewrite <- Hperm. set_solver.
  - by apply is_loan_false.
  - intros d' Hd' Hown. rewrite <- Hperm in Hd'.
    apply elem_of_app in Hd' as [Hd'|Hd'].
    + apply elem_of_app in Hd' as [Hd'|Hd'%list_elem_of_singleton].
      * apply StronglySorted_app_1_l in Hsorted.
        apply (StronglySorted_app_1_elem_of _ _ _ d' d Hsorted Hd').
        apply list_elem_of_here.
      * subst d'. lia.
    + rewrite Forall_forall in Hloans. specialize (Hloans d' Hd').
      by apply is_loan_true in Hloans.
Qed.

Lemma strip_loan_of_chain_latest_witness :
  exists l h' c d,
    strip_loan_of_chain Sample.tree_ref 1 Sample.shuffled = Some (Ok l, h') /\
    h' !! l = Some c /\ last c = Some d /\ Event.action d ≠ "LOAN" /\
    forall d', d' ∈ default [] (deref Sample.shuffled Sample.tree_ref !! 1) ->
      Event.action d' ≠ "LOAN" ->
      Event.timestamp_utc d' <= Event.timestamp_utc d.
Proof.
  eexists _, _.
  assert (Hrun : strip_loan_of_chain Sample.tree_ref 1 Sample.shuffled
                 = Some (Ok ?[l], ?[h'])) by (vm_compute; reflexivity).
  destruct (strip_loan_of_chain_latest _ _ _ _ _ Hrun)
    as (c & d & Hc & Hd & _ & Hown & Hlatest).
  exists c, d. by repeat split.
Defined.
